(** * Integer division by an invariant divisor (hwy/contrib/intdiv)

    A shallow embedding of [hwy/contrib/intdiv/intdiv-inl.h]: the helper
    functions of namespace [detail], the eight specialisations of
    [ComputeDivisorParams], the vector evaluation [IntDiv], the flooring
    wrapper [IntDivFloor], the convenience entry points
    [DivideByScalar] / [FloorDivideByScalar] and the array entry points
    [DivideArrayByScalar] / [FloorDivideArrayByScalar]; with them the
    scalar references of [intdiv_test.cc] and the kernels and the result
    check of [intdiv_bench.cc].

    Conventions.
    - A lane value is a [Z] lying in the range of its C++ type: unsigned
      lanes in [0, 2^W), signed lanes in [-2^(W-1), 2^(W-1)).  Every C++
      conversion is written out as [static_cast].
    - A vector is the list of its lanes; a tag [d] carries the lane type and
      the lane count.  Highway operations act lane by lane.
    - [HWY_ABORT] (zero divisor) is the result [None].
    - Preprocessor branches are selected by a [Build] record. *)

From Stdlib Require Import ZArith List Bool Lia.
Import ListNotations.
Local Open Scope Z_scope.

(* ------------------------------------------------------------------ *)
(** ** Lane types and C++ integer conversions                          *)
(* ------------------------------------------------------------------ *)

Inductive Width : Type := W8 | W16 | W32 | W64.

Inductive LaneType : Type :=
| UInt (w : Width)
| SInt (w : Width).

Definition uint8_t  := UInt W8.
Definition uint16_t := UInt W16.
Definition uint32_t := UInt W32.
Definition uint64_t := UInt W64.
Definition int8_t   := SInt W8.
Definition int16_t  := SInt W16.
Definition int32_t  := SInt W32.
Definition int64_t  := SInt W64.

(** [int] and [unsigned] are 32 bits wide on every Highway target. *)
Definition int_t      := int32_t.
Definition unsigned_t := uint32_t.

Definition width_bits (w : Width) : Z :=
  match w with W8 => 8 | W16 => 16 | W32 => 32 | W64 => 64 end.

Definition width_of (T : LaneType) : Width :=
  match T with UInt w => w | SInt w => w end.

(** [sizeof(T)], in bytes. *)
Definition sizeof (T : LaneType) : Z :=
  match width_of T with W8 => 1 | W16 => 2 | W32 => 4 | W64 => 8 end.

Definition bits_of (T : LaneType) : Z := sizeof T * 8.

Definition IsSigned (T : LaneType) : bool :=
  match T with UInt _ => false | SInt _ => true end.

Definition MakeUnsigned (T : LaneType) : LaneType := UInt (width_of T).
Definition MakeSigned (T : LaneType) : LaneType := SInt (width_of T).


Definition LimitsMin (T : LaneType) : Z :=
  match T with UInt _ => 0 | SInt w => - 2 ^ (width_bits w - 1) end.

Definition LimitsMax (T : LaneType) : Z :=
  match T with
  | UInt w => 2 ^ width_bits w - 1
  | SInt w => 2 ^ (width_bits w - 1) - 1
  end.

Definition in_range (T : LaneType) (z : Z) : Prop :=
  LimitsMin T <= z <= LimitsMax T.

Definition in_rangeb (T : LaneType) (z : Z) : bool :=
  (LimitsMin T <=? z) && (z <=? LimitsMax T).

(** [static_cast<T>(z)]: reduction modulo [2^W] into the range of [T]
    (two's complement for the signed types). *)
Definition static_cast (T : LaneType) (z : Z) : Z :=
  match T with
  | UInt w => z mod 2 ^ width_bits w
  | SInt w =>
      (z + 2 ^ (width_bits w - 1)) mod 2 ^ width_bits w
      - 2 ^ (width_bits w - 1)
  end.

(* ------------------------------------------------------------------ *)
(** ** Build configuration (preprocessor branches)                     *)
(* ------------------------------------------------------------------ *)

(** The values of [HWY_TARGET] the file distinguishes; every other
    target is [HWY_OTHER]. *)
Inductive Target : Type :=
| HWY_NEON | HWY_PPC8 | HWY_VSX | HWY_AVX3 | HWY_AVX2 | HWY_OTHER.

(** The branch of [DivideHighBy] the compiler selects.  [WideInt128] is
    the [__SIZEOF_INT128__] branch, [WidePortable] the last [#else]
    branch.  The branch that calls the MSVC intrinsic [_udiv128] is not
    modelled: the source does not contain the intrinsic. *)
Inductive WideDiv : Type := WideInt128 | WidePortable.

Record Build : Type := mkBuild {
  target : Target;
  wide_div : WideDiv;
  (** a user definition of [HWY_INTDIV_SCALAR64], when there is one *)
  scalar64_defined : option bool
}.

(** [HWY_INTDIV_SCALAR64]: defaults to 1 on NEON, PPC8 and VSX. *)
Definition HWY_INTDIV_SCALAR64 (b : Build) : bool :=
  match scalar64_defined b with
  | Some v => v
  | None =>
      match target b with
      | HWY_NEON | HWY_PPC8 | HWY_VSX => true
      | _ => false
      end
  end.

(* ------------------------------------------------------------------ *)
(** ** namespace detail: scalar helpers                                *)
(* ------------------------------------------------------------------ *)

(** [IsPow2(x)]: [x > 0 && (x & (x - 1)) == 0]. *)
Definition IsPow2 (x : Z) : bool :=
  (0 <? x) && (Z.land x (x - 1) =? 0).

(** The [while ((x & 1) == 0)] loop of [CountTrailingZeros32]; [fuel]
    bounds the number of iterations. *)
Fixpoint ctz_loop (fuel : nat) (x count : Z) : Z :=
  match fuel with
  | O => count
  | S fuel' =>
      if Z.land x 1 =? 0
      then ctz_loop fuel' (Z.shiftr x 1) (count + 1)
      else count
  end.

(** [CountTrailingZeros32], portable branch.  The compiler intrinsics of
    the other branches count the same zeros. *)
Definition CountTrailingZeros32 (x : Z) : Z :=
  if x =? 0 then 32 else ctz_loop 32 x 0.

(** [CountTrailingZeros64], portable branch. *)
Definition CountTrailingZeros64 (x : Z) : Z :=
  if x =? 0 then 64 else
  let lo := static_cast uint32_t x in
  if negb (lo =? 0) then CountTrailingZeros32 lo
  else 32 + CountTrailingZeros32 (static_cast uint32_t (Z.shiftr x 32)).

(** One [if (x <= bound) { n += k; x <<= k; }] step. *)
Definition lzc_step (bound k : Z) (st : Z * Z) : Z * Z :=
  let '(n, x) := st in
  if x <=? bound then (n + k, static_cast uint32_t (Z.shiftl x k))
  else (n, x).

(** [LeadingZeroCount32], portable branch. *)
Definition LeadingZeroCount32 (x : Z) : Z :=
  if x =? 0 then 32 else
  let st := (0, x) in
  let st := lzc_step 0x0000FFFF 16 st in
  let st := lzc_step 0x00FFFFFF 8 st in
  let st := lzc_step 0x0FFFFFFF 4 st in
  let st := lzc_step 0x3FFFFFFF 2 st in
  let '(n, x) := st in
  if x <=? 0x7FFFFFFF then n + 1 else n.

(** [LeadingZeroCount64], portable branch. *)
Definition LeadingZeroCount64 (x : Z) : Z :=
  if x =? 0 then 64 else
  let hi := static_cast uint32_t (Z.shiftr x 32) in
  if negb (hi =? 0) then LeadingZeroCount32 hi
  else 32 + LeadingZeroCount32 (static_cast uint32_t x).

Definition base32 : Z := Z.shiftl 1 32.

(** The correction loop of the portable [DivideHighBy]:
    [while (qh >= base32 || qh * dl > (rem << 32))
       { --qh; rem += dh; if (rem >= base32) break; }]
    on [uint64_t] values.  [None] when [fuel] iterations do not leave
    the loop. *)
Fixpoint knuth_adjust (fuel : nat) (dh dl qh rem : Z) : option (Z * Z) :=
  if (base32 <=? qh)
     || (static_cast uint64_t (Z.shiftl rem 32)
           <? static_cast uint64_t (qh * dl))
  then
    match fuel with
    | O => None
    | S fuel' =>
        let qh' := static_cast uint64_t (qh - 1) in
        let rem' := static_cast uint64_t (rem + dh) in
        if base32 <=? rem' then Some (qh', rem')
        else knuth_adjust fuel' dh dl qh' rem'
    end
  else Some (qh, rem).

(** Iterations granted to the correction loop; [knuth_adjust_total]
    shows that two already suffice for a normalised divisor. *)
Definition knuth_fuel : nat := 4.

(** [DivideHighBy(high, divisor)], last [#else] branch. *)
Definition DivideHighBy_portable (high divisor : Z) : option Z :=
  let high := high mod divisor in
  if high =? 0 then Some 0 else
  let ldz := LeadingZeroCount64 divisor in
  let d_norm := static_cast uint64_t (Z.shiftl divisor ldz) in
  let n_norm := static_cast uint64_t (Z.shiftl high ldz) in
  let dh := static_cast uint32_t (Z.shiftr d_norm 32) in
  let dl := static_cast uint32_t (Z.land d_norm 0xFFFFFFFF) in
  let qh := n_norm / dh in
  let rem := static_cast uint64_t (n_norm - qh * dh) in
  match knuth_adjust knuth_fuel dh dl qh rem with
  | None => None
  | Some (qh, _) =>
      let dividend_pairs :=
        static_cast uint64_t
          (static_cast uint64_t (Z.shiftl n_norm 32)
           - static_cast uint64_t (d_norm * qh)) in
      let ql := static_cast uint32_t (dividend_pairs / dh) in
      Some (Z.lor (static_cast uint64_t (Z.shiftl qh 32)) ql)
  end.

(** [DivideHighBy(high, divisor)], [__SIZEOF_INT128__] branch. *)
Definition DivideHighBy_int128 (high divisor : Z) : option Z :=
  Some (static_cast uint64_t (Z.shiftl high 64 / divisor)).

(** [DivideHighBy].  A zero divisor fails [HWY_DASSERT] and then divides
    by zero: no result. *)
Definition DivideHighBy (b : Build) (high divisor : Z) : option Z :=
  if divisor =? 0 then None else
  match wide_div b with
  | WideInt128 => DivideHighBy_int128 high divisor
  | WidePortable => DivideHighBy_portable high divisor
  end.

(* ------------------------------------------------------------------ *)
(** ** Divisor parameter structures                                    *)
(* ------------------------------------------------------------------ *)

(** A field the source leaves unassigned on some path ([pow2_shift] when
    [is_pow2] is false) is given the value [unset]; no function reads it
    on that path. *)
Definition unset : Z := 0.

(** [DivisorParamsU<T>]. *)
Module ParamsU.
Record t : Type := mk {
  multiplier : Z;   (* MulType_t<T> *)
  shift1 : Z;
  shift2 : Z;
  is_pow2 : bool;
  pow2_shift : Z;
  divisor : Z
}.
End ParamsU.

(** [DivisorParamsS<T>]. *)
Module ParamsS.
Record t : Type := mk {
  multiplier : Z;   (* MulType_t<T> *)
  shift : Z;
  divisor : Z;
  is_pow2 : bool;
  pow2_shift : Z
}.
End ParamsS.

Definition DivisorParamsU : Type := ParamsU.t.
Definition DivisorParamsS : Type := ParamsS.t.

(** Bind of the option monad, for the calls that can abort. *)
Definition obind {A B : Type} (o : option A) (k : A -> option B) : option B :=
  match o with Some a => k a | None => None end.

Notation "x <- e ;; k" := (obind e (fun x => k))
  (at level 61, e at next level, right associativity).

(* ------------------------------------------------------------------ *)
(** ** ComputeDivisorParams, unsigned                                  *)
(* ------------------------------------------------------------------ *)

(** The power-of-two arm shared by the unsigned specialisations. *)
Definition pow2_paramsU (ctz : Z -> Z) (divisor : Z) : DivisorParamsU :=
  ParamsU.mk 1 0 0 true (ctz divisor) divisor.

(** The [divisor == 1] arm shared by the unsigned specialisations. *)
Definition unit_paramsU (divisor : Z) : DivisorParamsU :=
  ParamsU.mk 1 0 0 false unset divisor.

(** [ComputeDivisorParams(uint8_t)]. *)
Definition ComputeDivisorParams_u8 (divisor : Z) : option DivisorParamsU :=
  if divisor =? 0 then None else
  if IsPow2 divisor then Some (pow2_paramsU CountTrailingZeros32 divisor) else
  if divisor =? 1 then Some (unit_paramsU divisor) else
  let l := static_cast unsigned_t
             (32 - LeadingZeroCount32 (static_cast uint32_t (divisor - 1))) in
  let two_l := static_cast uint16_t (static_cast unsigned_t (Z.shiftl 1 l)) in
  let two_l := if l =? 8 then 0 else two_l in
  (* two_l - divisor is an int; the cast to uint32_t precedes the shift *)
  let m := static_cast uint32_t
             (static_cast uint32_t
                (Z.shiftl (static_cast uint32_t
                             (static_cast int_t (two_l - divisor))) 8)
              / divisor + 1) in
  Some (ParamsU.mk (static_cast uint16_t m) 1 (static_cast int_t (l - 1))
                   false unset divisor).

(** [ComputeDivisorParams(uint16_t)]. *)
Definition ComputeDivisorParams_u16 (divisor : Z) : option DivisorParamsU :=
  if divisor =? 0 then None else
  if IsPow2 divisor then Some (pow2_paramsU CountTrailingZeros32 divisor) else
  if divisor =? 1 then Some (unit_paramsU divisor) else
  let l := static_cast unsigned_t
             (32 - LeadingZeroCount32 (static_cast uint32_t (divisor - 1))) in
  let two_l := static_cast uint32_t (Z.shiftl 1 l) in
  let two_l := if l =? 16 then 0 else two_l in
  (* two_l - divisor is computed in unsigned, then widened *)
  let m := static_cast uint32_t
             (static_cast uint64_t
                (Z.shiftl (static_cast uint64_t
                             (static_cast uint32_t (two_l - divisor))) 16)
              / divisor + 1) in
  Some (ParamsU.mk m 1 (static_cast int_t (l - 1)) false unset divisor).

(** [ComputeDivisorParams(uint32_t)]. *)
Definition ComputeDivisorParams_u32 (divisor : Z) : option DivisorParamsU :=
  if divisor =? 0 then None else
  if IsPow2 divisor then Some (pow2_paramsU CountTrailingZeros32 divisor) else
  if divisor =? 1 then Some (unit_paramsU divisor) else
  let l := static_cast unsigned_t
             (32 - LeadingZeroCount32 (static_cast uint32_t (divisor - 1))) in
  let two_l := static_cast uint64_t (Z.shiftl 1 l) in
  let two_l := if l =? 32 then 0 else two_l in
  let m := static_cast uint64_t
             (static_cast uint64_t
                (Z.shiftl (static_cast uint64_t (two_l - divisor)) 32)
              / divisor + 1) in
  Some (ParamsU.mk (static_cast uint32_t m) 1 (static_cast int_t (l - 1))
                   false unset divisor).

(** [ComputeDivisorParams(uint64_t)]. *)
Definition ComputeDivisorParams_u64 (b : Build) (divisor : Z)
  : option DivisorParamsU :=
  if divisor =? 0 then None else
  if IsPow2 divisor then Some (pow2_paramsU CountTrailingZeros64 divisor) else
  if divisor =? 1 then Some (unit_paramsU divisor) else
  let l := static_cast unsigned_t
             (64 - LeadingZeroCount64 (static_cast uint64_t (divisor - 1))) in
  let two_l_minus_d :=
    if l <? 64 then static_cast uint64_t (Z.shiftl 1 l - divisor)
    else static_cast uint64_t (0 - divisor) in
  q <- DivideHighBy b two_l_minus_d divisor ;;
  let m := static_cast uint64_t (q + 1) in
  Some (ParamsU.mk m 1 (static_cast int_t (l - 1)) false unset divisor).

(** Overload resolution on an unsigned [T]. *)
Definition ComputeDivisorParamsU (b : Build) (w : Width) (divisor : Z)
  : option DivisorParamsU :=
  match w with
  | W8 => ComputeDivisorParams_u8 divisor
  | W16 => ComputeDivisorParams_u16 divisor
  | W32 => ComputeDivisorParams_u32 divisor
  | W64 => ComputeDivisorParams_u64 b divisor
  end.

(* ------------------------------------------------------------------ *)
(** ** ComputeDivisorParams, signed                                    *)
(* ------------------------------------------------------------------ *)

(** [static_cast<UT>(divisor < 0 ? -divisor : divisor)].  The negation is
    carried out in the promoted type of [T]: [int] for the 8-, 16- and
    32-bit lanes, [int64_t] for the 64-bit lanes.  Negating the minimum
    of [int] or [int64_t] is taken to wrap (two's complement). *)
Definition abs_divisor (T : LaneType) (divisor : Z) : Z :=
  let promoted := match width_of T with W64 => int64_t | _ => int_t end in
  static_cast (MakeUnsigned T)
    (if divisor <? 0 then static_cast promoted (- divisor) else divisor).

Definition pow2_paramsS (ctz : Z -> Z) (abs_d divisor : Z) : DivisorParamsS :=
  ParamsS.mk 1 0 divisor true (ctz abs_d).

Definition unit_paramsS (divisor : Z) : DivisorParamsS :=
  ParamsS.mk 1 0 divisor false unset.

(** [ComputeDivisorParams(int8_t)]. *)
Definition ComputeDivisorParams_i8 (divisor : Z) : option DivisorParamsS :=
  if divisor =? 0 then None else
  let abs_d := abs_divisor int8_t divisor in
  if IsPow2 abs_d
  then Some (pow2_paramsS CountTrailingZeros32 abs_d divisor) else
  if abs_d =? 1 then Some (unit_paramsS divisor) else
  if static_cast uint8_t divisor =? 0x80
  then Some (ParamsS.mk (static_cast int16_t 0x81) 6 divisor false unset) else
  let sh := static_cast unsigned_t
              (31 - LeadingZeroCount32 (static_cast uint32_t (abs_d - 1))) in
  let m := static_cast uint32_t
             (static_cast uint32_t (Z.shiftl 256 sh) / abs_d + 1) in
  Some (ParamsS.mk (static_cast int16_t m) (static_cast int_t sh)
                   divisor false unset).

(** [ComputeDivisorParams(int16_t)]. *)
Definition ComputeDivisorParams_i16 (divisor : Z) : option DivisorParamsS :=
  if divisor =? 0 then None else
  let abs_d := abs_divisor int16_t divisor in
  if IsPow2 abs_d
  then Some (pow2_paramsS CountTrailingZeros32 abs_d divisor) else
  if abs_d =? 1 then Some (unit_paramsS divisor) else
  if static_cast uint16_t divisor =? 0x8000
  then Some (ParamsS.mk (static_cast int32_t 0x8001) 14 divisor false unset)
  else
  let sh := static_cast unsigned_t
              (31 - LeadingZeroCount32 (static_cast uint32_t (abs_d - 1))) in
  let m := static_cast uint32_t
             (static_cast uint64_t (Z.shiftl 65536 sh) / abs_d + 1) in
  Some (ParamsS.mk (static_cast int32_t m) (static_cast int_t sh)
                   divisor false unset).

(** [ComputeDivisorParams(int32_t)]. *)
Definition ComputeDivisorParams_i32 (divisor : Z) : option DivisorParamsS :=
  if divisor =? 0 then None else
  let abs_d := abs_divisor int32_t divisor in
  if IsPow2 abs_d
  then Some (pow2_paramsS CountTrailingZeros32 abs_d divisor) else
  if abs_d =? 1 then Some (unit_paramsS divisor) else
  if static_cast uint32_t divisor =? 0x80000000
  then Some (ParamsS.mk (static_cast int32_t 0x80000001) 30 divisor
                        false unset)
  else
  let sh := static_cast unsigned_t
              (31 - LeadingZeroCount32 (static_cast uint32_t (abs_d - 1))) in
  let m := static_cast uint64_t
             (static_cast uint64_t (Z.shiftl 0x100000000 sh) / abs_d + 1) in
  Some (ParamsS.mk (static_cast int32_t m) (static_cast int_t sh)
                   divisor false unset).

(** [ComputeDivisorParams(int64_t)]. *)
Definition ComputeDivisorParams_i64 (b : Build) (divisor : Z)
  : option DivisorParamsS :=
  if divisor =? 0 then None else
  let abs_d := abs_divisor int64_t divisor in
  if IsPow2 abs_d
  then Some (pow2_paramsS CountTrailingZeros64 abs_d divisor) else
  if abs_d =? 1 then Some (unit_paramsS divisor) else
  if static_cast uint64_t divisor =? 0x8000000000000000
  then Some (ParamsS.mk (static_cast int64_t 0x8000000000000001) 62 divisor
                        false unset)
  else
  let sh := static_cast unsigned_t
              (63 - LeadingZeroCount64 (static_cast uint64_t (abs_d - 1))) in
  q <- DivideHighBy b (static_cast uint64_t (Z.shiftl 1 sh)) abs_d ;;
  let m := static_cast uint64_t (q + 1) in
  Some (ParamsS.mk (static_cast int64_t m) (static_cast int_t sh)
                   divisor false unset).

(** Overload resolution on a signed [T]. *)
Definition ComputeDivisorParamsS (b : Build) (w : Width) (divisor : Z)
  : option DivisorParamsS :=
  match w with
  | W8 => ComputeDivisorParams_i8 divisor
  | W16 => ComputeDivisorParams_i16 divisor
  | W32 => ComputeDivisorParams_i32 divisor
  | W64 => ComputeDivisorParams_i64 b divisor
  end.

(* ------------------------------------------------------------------ *)
(** ** The Highway vocabulary the kernel consumes                      *)
(* ------------------------------------------------------------------ *)

(** The operations of this section belong to Highway's portability layer
    ([hwy/highway.h]), which lies outside the kernel.  They are given the
    lane-wise meaning the specification names in its list of the external
    vocabulary. *)

(** Modelled from the spec: the lane vector, here the list of its lanes. *)
Definition Vec : Type := list Z.

(** Modelled from the spec: the lane mask a comparison produces. *)
Definition Mask : Type := list bool.

(** Modelled from the spec: the lane type descriptor [D], providing lane
    type ([TFromD<D>]) and lane count ([Lanes(d)]). *)
Record Tag : Type := mkTag {
  TFromD : LaneType;
  Lanes : nat
}.

(** Modelled from the spec: lane-width re-tagging, [Rebind<T, D>]; the
    tag of a vector with one lane of type [T] per lane of [d]. *)
Definition Rebind (T : LaneType) (d : Tag) : Tag := mkTag T (Lanes d).

(** Modelled from the spec: lane-width re-tagging, [Repartition<T, D>]; the
    kernel uses it for the tag of the promoted vector, which holds one
    wide lane per narrow lane. *)
Definition Repartition (T : LaneType) (d : Tag) : Tag := mkTag T (Lanes d).

(** A binary operation applied lane by lane. *)
Definition lanes2 {A B C : Type} (f : A -> B -> C)
  (a : list A) (b : list B) : list C :=
  map (fun p => f (fst p) (snd p)) (combine a b).

(** Modelled from the spec: uniform broadcast, [Set(d, x)].  The scalar
    converts to the lane type of the tag. *)
Definition Set_ (d : Tag) (x : Z) : Vec :=
  repeat (static_cast (TFromD d) x) (Lanes d).

(** Modelled from the spec: [Zero(d)], the broadcast of 0. *)
Definition Zero (d : Tag) : Vec := Set_ d 0.

(** Modelled from the spec: element-wise add, wrapping in the lane type. *)
Definition Add (T : LaneType) (a b : Vec) : Vec :=
  lanes2 (fun x y => static_cast T (x + y)) a b.

(** Modelled from the spec: element-wise subtract, wrapping in the lane
    type. *)
Definition Sub (T : LaneType) (a b : Vec) : Vec :=
  lanes2 (fun x y => static_cast T (x - y)) a b.

(** Modelled from the spec: low-half lane multiply, the product wrapped
    into the lane type. *)
Definition Mul (T : LaneType) (a b : Vec) : Vec :=
  lanes2 (fun x y => static_cast T (x * y)) a b.

(** Modelled from the spec: element-wise negate, wrapping in the lane
    type. *)
Definition Neg (T : LaneType) (a : Vec) : Vec :=
  map (fun x => static_cast T (- x)) a.

(** Modelled from the spec: element-wise AND of the lane bits. *)
Definition And (a b : Vec) : Vec := lanes2 Z.land a b.

(** Modelled from the spec: element-wise XOR of the lane bits. *)
Definition Xor (a b : Vec) : Vec := lanes2 Z.lxor a b.

(** Modelled from the spec: compile-time-count right shift
    [ShiftRight<k>(v)], arithmetic on signed lanes and logical on unsigned
    lanes.  On the integer a lane denotes, both are [Z.shiftr]
    ([ShiftRight_fill] relates it to the bits). *)
Definition ShiftRight (k : Z) (v : Vec) : Vec :=
  map (fun x => Z.shiftr x k) v.

(** Modelled from the spec: the native per-lane variable-count right shift,
    [ShiftRight(d, v, svec)] in the source. *)
Definition ShiftRightVar (v svec : Vec) : Vec := lanes2 Z.shiftr v svec.

(** Modelled from the spec: high-half lane multiply [MulHigh], the upper
    [W] bits of the [2W]-bit product, signed or unsigned. *)
Definition MulHigh (T : LaneType) (a b : Vec) : Vec :=
  lanes2 (fun x y => Z.shiftr (x * y) (bits_of T)) a b.

(** Modelled from the spec: promotion [PromoteTo] (W to 2W) preserves the
    value of every lane. *)
Definition PromoteTo (d : Tag) (v : Vec) : Vec := v.

(** Modelled from the spec: demotion [DemoteTo] (2W to W) brings a wide
    lane into the narrow type; Highway saturates.  The kernel demotes
    values that already fit. *)
Definition DemoteTo (d : Tag) (v : Vec) : Vec :=
  map (fun x => Z.max (LimitsMin (TFromD d)) (Z.min (LimitsMax (TFromD d)) x))
      v.

(** Modelled from the spec: comparison [Ne] producing a lane mask. *)
Definition Ne (a b : Vec) : Mask := lanes2 (fun x y => negb (x =? y)) a b.

(** Modelled from the spec: comparison [Lt] producing a lane mask. *)
Definition Lt (a b : Vec) : Mask := lanes2 Z.ltb a b.

(** Modelled from the spec: [Xor] on lane masks. *)
Definition XorM (a b : Mask) : Mask := lanes2 xorb a b.

(** Modelled from the spec: [And] on lane masks. *)
Definition AndM (a b : Mask) : Mask := lanes2 andb a b.

(** Modelled from the spec: mask-based select [IfThenElse]. *)
Definition IfThenElse (m : Mask) (yes no : Vec) : Vec :=
  lanes2 (fun (c : bool) (p : Z * Z) => if c then fst p else snd p)
         m (combine yes no).

(** Modelled from the spec: aligned store of the [Lanes(d)] lanes to a
    buffer. *)
Definition Store (v : Vec) (d : Tag) : list Z := firstn (Lanes d) v.

(** Modelled from the spec: aligned load of [Lanes(d)] lanes from a
    buffer. *)
Definition Load (d : Tag) (buf : list Z) : Vec := firstn (Lanes d) buf.

(* ------------------------------------------------------------------ *)
(** ** namespace detail: vector helpers                                *)
(* ------------------------------------------------------------------ *)

(** Whether [ShiftRightUniform] takes a native variable-shift branch. *)
Definition native_shift (b : Build) (T : LaneType) : bool :=
  match target b with
  | HWY_NEON => true
  | HWY_AVX3 => true
  | HWY_AVX2 => sizeof T =? 4
  | _ => false
  end.

(** [if (sh & bit) v = ShiftRight<bit>(v);] *)
Definition shift_if (sh bit : Z) (v : Vec) : Vec :=
  if negb (Z.land sh bit =? 0) then ShiftRight bit v else v.

(** [detail::ShiftRightUniform(d, v, sh)]. *)
Definition ShiftRightUniform (b : Build) (d : Tag) (v : Vec) (sh : Z) : Vec :=
  let T := TFromD d in
  let bits := static_cast int_t (sizeof T * 8) in
  if sh <=? 0 then v else
  let sh := if bits <=? sh then bits - 1 else sh in
  if native_shift b T then
    let svec := Set_ (Rebind (MakeSigned T) d) sh in
    ShiftRightVar v svec
  else
    let v := if sizeof T =? 8 then shift_if sh 32 v else v in
    let v := if 4 <=? sizeof T then shift_if sh 16 v else v in
    let v := shift_if sh 8 v in
    let v := shift_if sh 4 v in
    let v := shift_if sh 2 v in
    let v := shift_if sh 1 v in
    v.

(** [buf[i] = x] on a list; out of range leaves the list as it is (the
    loop below never writes out of range). *)
Fixpoint buf_set (buf : list Z) (i : nat) (x : Z) : list Z :=
  match buf, i with
  | [], _ => []
  | _ :: tl, O => x :: tl
  | hd :: tl, S i' => hd :: buf_set tl i' x
  end.

(** [detail::ScalarDivPerLane(d, dividend, divisor)]: store, divide every
    lane by the scalar with C++ truncating division, load. *)
Definition ScalarDivPerLane (d : Tag) (dividend : Vec) (divisor : Z) : Vec :=
  let T := TFromD d in
  let N := Lanes d in
  let buf := Store dividend d in
  let buf :=
    fold_left
      (fun buf i =>
         buf_set buf i (static_cast T (Z.quot (nth i buf 0) divisor)))
      (seq 0 N) buf in
  Load d buf.

(* ------------------------------------------------------------------ *)
(** ** IntDiv: truncating division with precomputed parameters         *)
(* ------------------------------------------------------------------ *)

(** The four statements that end every width branch of the unsigned
    [IntDiv]:
    [diff = Sub(dividend, t1); shifted = ShiftRightUniform(d, diff, shift1);
     sum = Add(t1, shifted); return ShiftRightUniform(d, sum, shift2);] *)
Definition IntDivU_finish (b : Build) (d : Tag) (dividend t1 : Vec)
  (params : DivisorParamsU) : Vec :=
  let T := TFromD d in
  let diff := Sub T dividend t1 in
  let shifted := ShiftRightUniform b d diff (ParamsU.shift1 params) in
  let sum := Add T t1 shifted in
  ShiftRightUniform b d sum (ParamsU.shift2 params).

(** [IntDiv(d, dividend, params)] for unsigned lanes. *)
Definition IntDivU (b : Build) (d : Tag) (dividend : Vec)
  (params : DivisorParamsU) : Vec :=
  let T := TFromD d in
  if ParamsU.is_pow2 params
  then ShiftRightUniform b d dividend (ParamsU.pow2_shift params) else
  if (ParamsU.shift1 params =? 0) && (ParamsU.shift2 params =? 0)
     && (ParamsU.multiplier params =? 1)
  then dividend else
  if HWY_INTDIV_SCALAR64 b && (sizeof T =? 8)
  then ScalarDivPerLane d dividend (ParamsU.divisor params) else
  if sizeof T =? 1 then
    let d16 := Repartition uint16_t d in
    let dividend_16 := PromoteTo d16 dividend in
    let multiplier_16 := Set_ d16 (ParamsU.multiplier params) in
    let prod := Mul uint16_t dividend_16 multiplier_16 in
    let t1 := DemoteTo d (ShiftRight 8 prod) in
    IntDivU_finish b d dividend t1 params
  else if sizeof T =? 2 then
    let d32 := Repartition uint32_t d in
    let dividend_32 := PromoteTo d32 dividend in
    let multiplier_32 := Set_ d32 (ParamsU.multiplier params) in
    let prod := Mul uint32_t dividend_32 multiplier_32 in
    let t1 := DemoteTo d (ShiftRight 16 prod) in
    IntDivU_finish b d dividend t1 params
  else
    (* the 32-bit and the 64-bit branch read alike *)
    let multiplier := Set_ d (ParamsU.multiplier params) in
    let t1 := MulHigh T dividend multiplier in
    IntDivU_finish b d dividend t1 params.

(** The integer type in which an expression on [T] is evaluated
    (integral promotion). *)
Definition promoted (T : LaneType) : LaneType :=
  match width_of T with W8 | W16 => int_t | _ => T end.

Definition size_t := uint64_t.

(** [IntDiv(d, dividend, params)] for signed lanes. *)
Definition IntDivS (b : Build) (d : Tag) (dividend : Vec)
  (params : DivisorParamsS) : Vec :=
  let T := TFromD d in
  let neg_divisor := ParamsS.divisor params <? 0 in
  if ParamsS.is_pow2 params then
    let UT := MakeUnsigned T in
    let mask_val :=
      if static_cast size_t (ParamsS.pow2_shift params) <? sizeof T * 8
      then static_cast T
             (static_cast (promoted UT)
                (Z.shiftl (static_cast UT 1) (ParamsS.pow2_shift params))
              - 1)
      else static_cast T (-1) in
    let mask := Set_ d mask_val in
    let kSignBit := sizeof T * 8 - 1 in
    let sign := ShiftRight kSignBit dividend in
    let bias := And sign mask in
    let q := ShiftRightUniform b d (Add T dividend bias)
               (ParamsS.pow2_shift params) in
    if neg_divisor then Neg T q else q
  else
  if (ParamsS.shift params =? 0) && (ParamsS.multiplier params =? 1)
  then (if neg_divisor then Neg T dividend else dividend) else
  if HWY_INTDIV_SCALAR64 b && (sizeof T =? 8)
  then ScalarDivPerLane d dividend (ParamsS.divisor params) else
  let q0 :=
    if sizeof T =? 1 then
      let d16 := Repartition int16_t d in
      let dividend_16 := PromoteTo d16 dividend in
      let multiplier_16 :=
        Set_ d16 (static_cast int16_t (ParamsS.multiplier params)) in
      let prod := Mul int16_t dividend_16 multiplier_16 in
      let high := DemoteTo d (ShiftRight 8 prod) in
      Add T dividend high
    else if sizeof T =? 2 then
      let d32 := Repartition int32_t d in
      let dividend_32 := PromoteTo d32 dividend in
      let multiplier_32 :=
        Set_ d32 (static_cast int32_t (ParamsS.multiplier params)) in
      let prod := Mul int32_t dividend_32 multiplier_32 in
      let high := DemoteTo d (ShiftRight 16 prod) in
      Add T dividend high
    else
      (* the 32-bit and the 64-bit branch read alike *)
      let multiplier := Set_ d (ParamsS.multiplier params) in
      let mulh := MulHigh T dividend multiplier in
      Add T dividend mulh in
  let q0 := ShiftRightUniform b d q0 (ParamsS.shift params) in
  let kSignBit2 := sizeof T * 8 - 1 in
  let sign_dividend := ShiftRight kSignBit2 dividend in
  let q0 := Sub T q0 sign_dividend in
  if neg_divisor then
    let neg_one := Set_ d (static_cast T (-1)) in
    let q0 := Xor q0 neg_one in
    Sub T q0 neg_one
  else q0.

(* ------------------------------------------------------------------ *)
(** ** IntDivFloor                                                     *)
(* ------------------------------------------------------------------ *)

(** [IntDivFloor(d, dividend, params)] for signed lanes. *)
Definition IntDivFloorS (b : Build) (d : Tag) (dividend : Vec)
  (params : DivisorParamsS) : Vec :=
  let T := TFromD d in
  let q := IntDivS b d dividend params in
  let divisor := Set_ d (ParamsS.divisor params) in
  let prod := Mul T q divisor in
  let neq := Ne dividend prod in
  let sdiff := XorM (Lt dividend (Zero d)) (Lt divisor (Zero d)) in
  let one := Set_ d (static_cast T 1) in
  Sub T q (IfThenElse (AndM neq sdiff) one (Zero d)).

(** [IntDivFloor(d, dividend, params)] for unsigned lanes. *)
Definition IntDivFloorU (b : Build) (d : Tag) (dividend : Vec)
  (params : DivisorParamsU) : Vec :=
  IntDivU b d dividend params.

(* ------------------------------------------------------------------ *)
(** ** Convenience functions                                           *)
(* ------------------------------------------------------------------ *)

(** [DivideByScalar(d, dividend, divisor)] for unsigned lanes. *)
Definition DivideByScalarU (b : Build) (d : Tag) (dividend : Vec)
  (divisor : Z) : option Vec :=
  let T := TFromD d in
  if divisor =? 0 then None else
  if IsPow2 divisor then
    let ctz :=
      if sizeof T =? 8
      then CountTrailingZeros64 (static_cast uint64_t divisor)
      else CountTrailingZeros32 (static_cast uint32_t divisor) in
    Some (ShiftRightUniform b d dividend ctz)
  else
    params <- ComputeDivisorParamsU b (width_of T) divisor ;;
    Some (IntDivU b d dividend params).

(** [DivideByScalar(d, dividend, divisor)] for signed lanes. *)
Definition DivideByScalarS (b : Build) (d : Tag) (dividend : Vec)
  (divisor : Z) : option Vec :=
  if divisor =? 0 then None else
  params <- ComputeDivisorParamsS b (width_of (TFromD d)) divisor ;;
  Some (IntDivS b d dividend params).

(** [FloorDivideByScalar(d, dividend, divisor)] for signed lanes. *)
Definition FloorDivideByScalarS (b : Build) (d : Tag) (dividend : Vec)
  (divisor : Z) : option Vec :=
  if divisor =? 0 then None else
  params <- ComputeDivisorParamsS b (width_of (TFromD d)) divisor ;;
  Some (IntDivFloorS b d dividend params).

(** [FloorDivideByScalar(d, dividend, divisor)] for unsigned lanes. *)
Definition FloorDivideByScalarU (b : Build) (d : Tag) (dividend : Vec)
  (divisor : Z) : option Vec :=
  DivideByScalarU b d dividend divisor.

(** Tags of the unsigned and of the signed lane type of a width. *)
Definition utag (w : Width) (n : nat) : Tag := mkTag (UInt w) n.
Definition stag (w : Width) (n : nat) : Tag := mkTag (SInt w) n.

(** "IntDiv composed with ComputeDivisorParams": derive the parameter block
    of [divisor], then evaluate on [dividend]. *)
Definition IntDivWithU (b : Build) (d : Tag) (dividend : Vec) (divisor : Z)
  : option Vec :=
  params <- ComputeDivisorParamsU b (width_of (TFromD d)) divisor ;;
  Some (IntDivU b d dividend params).

Definition IntDivWithS (b : Build) (d : Tag) (dividend : Vec) (divisor : Z)
  : option Vec :=
  params <- ComputeDivisorParamsS b (width_of (TFromD d)) divisor ;;
  Some (IntDivS b d dividend params).

Definition IntDivFloorWithU (b : Build) (d : Tag) (dividend : Vec)
  (divisor : Z) : option Vec :=
  params <- ComputeDivisorParamsU b (width_of (TFromD d)) divisor ;;
  Some (IntDivFloorU b d dividend params).

Definition IntDivFloorWithS (b : Build) (d : Tag) (dividend : Vec)
  (divisor : Z) : option Vec :=
  params <- ComputeDivisorParamsS b (width_of (TFromD d)) divisor ;;
  Some (IntDivFloorS b d dividend params).

(** The shift count [ShiftRightUniform] ends up applying. *)
Definition clamp_shift (T : LaneType) (sh : Z) : Z :=
  if sh <=? 0 then 0
  else if bits_of T <=? sh then bits_of T - 1
  else sh.

(** Reference quotients: C++ truncating division and the floor of the
    rational quotient. *)
Definition trunc_div (a d : Z) : Z := Z.quot a d.
Definition floor_div (a d : Z) : Z := a / d.

(** The sum of the immediates the portable branch applies for [sh]. *)
Definition decomposed (T : LaneType) (sh : Z) : Z :=
  (if sizeof T =? 8 then Z.land sh 32 else 0)
  + (if 4 <=? sizeof T then Z.land sh 16 else 0)
  + Z.land sh 8 + Z.land sh 4 + Z.land sh 2 + Z.land sh 1.

Definition shift_bits_ok (T : LaneType) (sh : Z) : bool :=
  implb (sh <? bits_of T)
    ((decomposed T sh =? sh)
     && forallb (fun bit => (Z.land sh bit =? 0) || (Z.land sh bit =? bit))
          [32; 16; 8; 4; 2; 1]).

(** The value [IntDiv] computes in one lane: the evaluation on a vector
    of a single lane. *)
Definition IntDivU_lane (b : Build) (T : LaneType) (p : DivisorParamsU)
  (a : Z) : Z :=
  hd 0 (IntDivU b (mkTag T 1) [a] p).

Definition IntDivS_lane (b : Build) (T : LaneType) (p : DivisorParamsS)
  (a : Z) : Z :=
  hd 0 (IntDivS b (mkTag T 1) [a] p).

Definition IntDivFloorS_lane (b : Build) (T : LaneType) (p : DivisorParamsS)
  (a : Z) : Z :=
  hd 0 (IntDivFloorS b (mkTag T 1) [a] p).

(** The (multiplier, shift) pair of the branch
    [if (static_cast<UT>(divisor) == 0x80...)] of the signed
    [ComputeDivisorParams]. *)
Definition min_branch_tuple (w : Width) : Z * Z :=
  match w with
  | W8 => (static_cast int16_t 0x81, 6)
  | W16 => (static_cast int32_t 0x8001, 14)
  | W32 => (static_cast int32_t 0x80000001, 30)
  | W64 => (static_cast int64_t 0x8000000000000001, 62)
  end.

(** The multiplier of the unsigned construction for a divisor [d] with
    [2^(l-1) < d <= 2^l], at lane width [N]. *)
Definition magicU (N l d : Z) : Z := 2 ^ N * (2 ^ l - d) / d + 1.

(** The multiplier of the signed construction for a magnitude [ad] with
    [2^sh < ad <= 2^(sh+1)], before it wraps into the lane type. *)
Definition magicS (N sh ad : Z) : Z := 2 ^ (N + sh) / ad + 1.




(** The build the exhaustive checks run in. *)
Definition check_build : Build := mkBuild HWY_OTHER WideInt128 None.

(** Whether [IntDiv] is right on every [uint8_t] dividend for divisor [d]. *)
Definition u8_divisor_ok (d : Z) : bool :=
  match ComputeDivisorParams_u8 d with
  | Some p =>
      forallb (fun a => IntDivU_lane check_build uint8_t p a =? a / d)
              (map Z.of_nat (seq 0 256))
  | None => false
  end.

(** Whether [IntDiv] is right on every [int8_t] dividend for divisor [d],
    the pair (-128, -1) apart. *)
Definition i8_divisor_ok (d : Z) : bool :=
  match ComputeDivisorParams_i8 d with
  | Some p =>
      forallb (fun z => ((z - 128 =? -128) && (d =? -1))
                        || (IntDivS_lane check_build int8_t p (z - 128)
                            =? Z.quot (z - 128) d))
              (map Z.of_nat (seq 0 256))
  | None => false
  end.

(* ------------------------------------------------------------------ *)
(** ** Array entry points                                              *)
(* ------------------------------------------------------------------ *)

(** An array [T* array] is the list of the elements from the pointer on;
    [count] and the indices are natural numbers (a [size_t] that does not
    wrap).  An access past the end of the list is undefined behaviour in
    C++ and is given no meaning here: the properties of these functions
    assume [count <= length array]. *)

(** Modelled from the spec: unaligned load [LoadU(d, array + i)] of the
    [Lanes(d)] lanes that start at index [i]. *)
Definition LoadU (d : Tag) (array : list Z) (i : nat) : Vec :=
  firstn (Lanes d) (skipn i array).

(** Modelled from the spec: unaligned store [StoreU(v, d, array + i)] of
    the [Lanes(d)] lanes to the indices from [i] on. *)
Definition StoreU (v : Vec) (d : Tag) (array : list Z) (i : nat) : list Z :=
  firstn i array ++ firstn (Lanes d) v ++ skipn (i + Lanes d) array.

(** Modelled from the spec: partial-length load [LoadN(d, array + i, n)]
    for tails.  The first [min(Lanes(d), n)] lanes are read; Highway sets
    the remaining lanes to zero. *)
Definition LoadN (d : Tag) (array : list Z) (i n : nat) : Vec :=
  let k := Nat.min (Lanes d) n in
  firstn k (skipn i array) ++ repeat 0 (Lanes d - k).

(** Modelled from the spec: partial-length store
    [StoreN(v, d, array + i, n)] for tails.  The first [min(Lanes(d), n)]
    lanes are written. *)
Definition StoreN (v : Vec) (d : Tag) (array : list Z) (i n : nat)
  : list Z :=
  let k := Nat.min (Lanes d) n in
  firstn i array ++ firstn k v ++ skipn (i + k) array.

(** Modelled from the spec: [ScalableTag<T>], the descriptor of a full
    vector of lanes of type [T]; [N] is the lane count the target gives
    it. *)
Definition ScalableTag (T : LaneType) (N : nat) : Tag := mkTag T N.

(** The main loop the array entry points share, [f] being the vector
    primitive they call:
    [for (; i + N <= count; i += N) {
       vec = LoadU(d, array + i); result = f(vec);
       StoreU(result, d, array + i); }]
    The result is the final [i] and the array; [None] when [fuel]
    iterations do not leave the loop. *)
Fixpoint array_loop (fuel : nat) (f : Vec -> Vec) (d : Tag)
  (count i : nat) (array : list Z) : option (nat * list Z) :=
  if (i + Lanes d <=? count)%nat then
    match fuel with
    | O => None
    | S fuel' =>
        let vec := LoadU d array i in
        let result := f vec in
        array_loop fuel' f d count (i + Lanes d) (StoreU result d array i)
    end
  else Some (i, array).

(** The remainder handling that follows the loop:
    [if (i < count) { remaining = count - i;
       vec = LoadN(d, array + i, remaining); result = f(vec);
       StoreN(result, d, array + i, remaining); }] *)
Definition array_tail (f : Vec -> Vec) (d : Tag) (count i : nat)
  (array : list Z) : list Z :=
  if (i <? count)%nat then
    let remaining := (count - i)%nat in
    let vec := LoadN d array i remaining in
    let result := f vec in
    StoreN result d array i remaining
  else array.

(** Loop and remainder.  [count] iterations are granted to the loop: with
    at least one lane per vector it needs no more. *)
Definition array_apply (f : Vec -> Vec) (d : Tag) (array : list Z)
  (count : nat) : option (list Z) :=
  st <- array_loop count f d count 0 array ;;
  Some (array_tail f d count (fst st) (snd st)).

(** [DivideArrayByScalar(array, count, divisor)] for unsigned [T]; the
    result is the array after the call. *)
Definition DivideArrayByScalarU (b : Build) (w : Width) (N : nat)
  (array : list Z) (count : nat) (divisor : Z) : option (list Z) :=
  if divisor =? 0 then None else
  let d := ScalableTag (UInt w) N in
  params <- ComputeDivisorParamsU b w divisor ;;
  array_apply (fun vec => IntDivU b d vec params) d array count.



(** [FloorDivideArrayByScalar(array, count, divisor)] for unsigned [T]. *)
Definition FloorDivideArrayByScalarU (b : Build) (w : Width) (N : nat)
  (array : list Z) (count : nat) (divisor : Z) : option (list Z) :=
  DivideArrayByScalarU b w N array count divisor.

(* ------------------------------------------------------------------ *)
(** ** Scalar references of the unit test (intdiv_test.cc)             *)
(* ------------------------------------------------------------------ *)

(** [SafeFloorDivScalar(a, b)].  The product [q * b] is formed in the
    promoted type. *)
Definition SafeFloorDivScalar (T : LaneType) (a b : Z) : Z :=
  if negb (IsSigned T) then static_cast T (Z.quot a b)
  else
    if (b =? static_cast T (-1)) && (a =? LimitsMin T)
    then static_cast T 0
    else
      let q := static_cast T (Z.quot a b) in
      let adjust :=
        negb (a =? static_cast (promoted T) (q * b))
        && xorb (a <? 0) (b <? 0) in
      static_cast T (q - (if adjust then 1 else 0)).

(** [AddedFloorDivScalar(a, b)] for signed [T]:
    [q = a / b; r = a % b; if ((r != 0) && ((a ^ b) < 0)) q -= 1;] *)
Definition AddedFloorDivScalarS (T : LaneType) (a b : Z) : Z :=
  let q := static_cast T (Z.quot a b) in
  let r := static_cast T (Z.rem a b) in
  if negb (r =? 0) && (Z.lxor a b <? 0)
  then static_cast T (q - 1) else q.

(** [AddedFloorDivScalar(a, b)] for unsigned [T]. *)
Definition AddedFloorDivScalarU (T : LaneType) (a b : Z) : Z :=
  static_cast T (Z.quot a b).

(* ------------------------------------------------------------------ *)
(** ** Kernels of the benchmark (intdiv_bench.cc)                      *)
(* ------------------------------------------------------------------ *)

(** [ScalarDivide(src, dst, count, divisor)]:
    [for (i = 0; i < count; ++i) dst[i] = src[i] / divisor;]
    The result is [dst] after the call. *)
Definition ScalarDivide (T : LaneType) (src dst : list Z) (count : nat)
  (divisor : Z) : list Z :=
  fold_left
    (fun dst i =>
       buf_set dst i (static_cast T (Z.quot (nth i src 0) divisor)))
    (seq 0 count) dst.

(** [ScalarFloorDivide(src, dst, count, divisor)]:
    [q = src[i] / divisor; r = src[i] % divisor;
     if ((r != 0) && ((r < 0) != (divisor < 0))) q -= 1; dst[i] = q;] *)
Definition ScalarFloorDivide (T : LaneType) (src dst : list Z) (count : nat)
  (divisor : Z) : list Z :=
  fold_left
    (fun dst i =>
       let q := static_cast T (Z.quot (nth i src 0) divisor) in
       let r := static_cast T (Z.rem (nth i src 0) divisor) in
       let q := if negb (r =? 0) && xorb (r <? 0) (divisor <? 0)
                then static_cast T (q - 1) else q in
       buf_set dst i q)
    (seq 0 count) dst.







(** [VerifyResults(simd_result, scalar_result, count, test_name)]: the
    loop returns false at the first index whose elements differ; the
    messages it prints are left out. *)
Definition VerifyResults (simd_result scalar_result : list Z) (count : nat)
  : bool :=
  forallb (fun i => nth i simd_result 0 =? nth i scalar_result 0)
          (seq 0 count).

(* ================================================================== *)
(** * Properties                                                       *)
(* ================================================================== *)

(* ------------------------------------------------------------------ *)
(** ** Conversions                                                     *)
(* ------------------------------------------------------------------ *)

Lemma width_bits_pos (w : Width) : 0 < width_bits w.
Proof. destruct w; reflexivity. Qed.

Lemma bits_of_width (T : LaneType) : bits_of T = width_bits (width_of T).
Proof. destruct T as [[]|[]]; reflexivity. Qed.

Lemma static_cast_id (T : LaneType) (z : Z) :
  in_range T z -> static_cast T z = z.
Proof.
  unfold in_range, static_cast, LimitsMin, LimitsMax.
  destruct T as [w|w]; intros H.
  - apply Z.mod_small. lia.
  - assert (E : 2 ^ width_bits w = 2 * 2 ^ (width_bits w - 1)).
    { rewrite <- Z.pow_succ_r by (pose proof (width_bits_pos w); lia).
      f_equal. lia. }
    rewrite Z.mod_small; lia.
Qed.

Lemma static_cast_in_range (T : LaneType) (z : Z) :
  in_range T (static_cast T z).
Proof.
  unfold in_range, static_cast, LimitsMin, LimitsMax.
  destruct T as [w|w].
  - assert (0 < 2 ^ width_bits w)
      by (apply Z.pow_pos_nonneg; destruct w; cbn; lia).
    pose proof (Z.mod_pos_bound z (2 ^ width_bits w)). lia.
  - assert (E : 2 ^ width_bits w = 2 * 2 ^ (width_bits w - 1)).
    { rewrite <- Z.pow_succ_r by (pose proof (width_bits_pos w); lia).
      f_equal. lia. }
    assert (0 < 2 ^ (width_bits w - 1))
      by (apply Z.pow_pos_nonneg; destruct w; cbn; lia).
    pose proof (Z.mod_pos_bound (z + 2 ^ (width_bits w - 1))
                  (2 ^ width_bits w)). lia.
Qed.

Lemma in_rangeb_spec (T : LaneType) (z : Z) :
  in_rangeb T z = true <-> in_range T z.
Proof.
  unfold in_rangeb, in_range. rewrite andb_true_iff, !Z.leb_le. tauto.
Qed.

Lemma signed_range (w : Width) (z : Z) :
  in_range (SInt w) z <->
  - 2 ^ (width_bits w - 1) <= z < 2 ^ (width_bits w - 1).
Proof. unfold in_range, LimitsMin, LimitsMax. lia. Qed.


Lemma half_width (w : Width) :
  2 ^ width_bits w = 2 * 2 ^ (width_bits w - 1) /\
  0 < 2 ^ (width_bits w - 1).
Proof.
  pose proof (width_bits_pos w). split.
  - rewrite <- Z.pow_succ_r by lia. f_equal. lia.
  - apply Z.pow_pos_nonneg; lia.
Qed.

(** A bounded universal statement checked by evaluation. *)
Lemma range_check (P : Z -> bool) (n : nat) :
  forallb P (map Z.of_nat (seq 0 n)) = true ->
  forall z, 0 <= z < Z.of_nat n -> P z = true.
Proof.
  intros H z Hz. rewrite forallb_forall in H. apply H.
  apply in_map_iff. exists (Z.to_nat z). split; [lia|].
  apply in_seq. lia.
Qed.

(* ------------------------------------------------------------------ *)
(** ** Lane-wise operations on lists                                   *)
(* ------------------------------------------------------------------ *)

Section Lanes2.
Context {A B C X : Type}.

Lemma lanes2_map_map (f : A -> B -> C) (g : X -> A) (h : X -> B)
  (v : list X) :
  lanes2 f (map g v) (map h v) = map (fun x => f (g x) (h x)) v.
Proof.
  unfold lanes2. induction v as [|x v IH]; cbn; [reflexivity|].
  now rewrite IH.
Qed.

Lemma repeat_as_map (c : A) (v : list X) :
  repeat c (length v) = map (fun _ => c) v.
Proof. induction v; cbn; congruence. Qed.

Lemma lanes2_repeat (f : A -> B -> C) (x : A) (y : B) (n : nat) :
  lanes2 f (repeat x n) (repeat y n) = repeat (f x y) n.
Proof.
  unfold lanes2. induction n; cbn; [reflexivity|]. now rewrite IHn.
Qed.
End Lanes2.

Lemma Set_as_map {X : Type} (d : Tag) (c : Z) (v : list X) :
  length v = Lanes d ->
  Set_ d c = map (fun _ => static_cast (TFromD d) c) v.
Proof. intros H. unfold Set_. rewrite <- H. apply repeat_as_map. Qed.

Lemma length_Set (d : Tag) (c : Z) : length (Set_ d c) = Lanes d.
Proof. apply repeat_length. Qed.

Lemma ShiftRight_0 (v : Vec) : ShiftRight 0 v = v.
Proof.
  unfold ShiftRight. rewrite <- (map_id v) at 2. apply map_ext.
  intros x. apply Z.shiftr_0_r.
Qed.

Lemma ShiftRight_ShiftRight (j k : Z) (v : Vec) :
  0 <= j -> 0 <= k -> ShiftRight k (ShiftRight j v) = ShiftRight (j + k) v.
Proof.
  intros Hj Hk. unfold ShiftRight. rewrite map_map. apply map_ext.
  intros x. apply Z.shiftr_shiftr. exact Hk.
Qed.

Lemma lanes2_id_map {A B C : Type} (f : A -> B -> C) (h : A -> B)
  (v : list A) :
  lanes2 f v (map h v) = map (fun x => f x (h x)) v.
Proof.
  rewrite <- (map_id v) at 1. apply (lanes2_map_map f (fun x => x) h).
Qed.

Lemma lanes2_map_id {A B C : Type} (f : A -> B -> C) (g : B -> A)
  (v : list B) :
  lanes2 f (map g v) v = map (fun x => f (g x) x) v.
Proof.
  rewrite <- (map_id v) at 2. apply (lanes2_map_map f g (fun x => x)).
Qed.

(* ------------------------------------------------------------------ *)
(** ** Leading and trailing zero counts                                *)
(* ------------------------------------------------------------------ *)

Lemma u32_shiftl_small (x k : Z) :
  0 <= k -> 0 <= x -> x * 2 ^ k < 2 ^ 32 ->
  static_cast uint32_t (Z.shiftl x k) = x * 2 ^ k.
Proof.
  intros Hk Hx H. rewrite Z.shiftl_mul_pow2 by exact Hk.
  apply Z.mod_small. split; [|exact H].
  apply Z.mul_nonneg_nonneg; [exact Hx|]. apply Z.pow_nonneg. lia.
Qed.

(** The portable [LeadingZeroCount32] normalises: shifting a non-zero
    [x] left by the count brings its top bit to position 31. *)
Lemma LeadingZeroCount32_spec (x : Z) :
  0 < x < 2 ^ 32 ->
  0 <= LeadingZeroCount32 x <= 31 /\
  2 ^ 31 <= x * 2 ^ LeadingZeroCount32 x < 2 ^ 32.
Proof.
  intros H. unfold LeadingZeroCount32.
  destruct (Z.eqb_spec x 0) as [|_]; [lia|].
  unfold lzc_step.
  repeat match goal with
  | |- context [?a <=? ?c] =>
      destruct (Z.leb_spec a c);
      try (rewrite u32_shiftl_small by lia)
  end; cbn [fst snd]; change (2 ^ 32) with 4294967296 in *;
  change (2 ^ 31) with 2147483648; cbn -[Z.mul Z.pow]; lia.
Qed.

Lemma u32_of_shiftr32 (x : Z) :
  0 <= x < 2 ^ 64 -> static_cast uint32_t (Z.shiftr x 32) = x / 2 ^ 32.
Proof.
  intros H. rewrite Z.shiftr_div_pow2 by lia. apply Z.mod_small.
  change (2 ^ width_bits W32) with (2 ^ 32).
  split; [apply Z.div_pos; lia|].
  apply Z.div_lt_upper_bound; [lia|].
  change (2 ^ 32 * 2 ^ 32) with (2 ^ 64). lia.
Qed.

Lemma LeadingZeroCount64_spec (x : Z) :
  0 < x < 2 ^ 64 ->
  0 <= LeadingZeroCount64 x <= 63 /\
  2 ^ 63 <= x * 2 ^ LeadingZeroCount64 x < 2 ^ 64.
Proof.
  intros H. unfold LeadingZeroCount64.
  destruct (Z.eqb_spec x 0) as [|_]; [lia|].
  rewrite u32_of_shiftr32 by lia.
  pose proof (Z.div_mod x (2 ^ 32) ltac:(lia)) as Dm.
  pose proof (Z.mod_pos_bound x (2 ^ 32) ltac:(lia)) as Mb.
  assert (Hq : 0 <= x / 2 ^ 32 < 2 ^ 32).
  { split; [apply Z.div_pos; lia|].
    apply Z.div_lt_upper_bound; [lia|].
    change (2 ^ 32 * 2 ^ 32) with (2 ^ 64). lia. }
  destruct (Z.eqb_spec (x / 2 ^ 32) 0) as [E|E]; cbn [negb].
  - assert (Ex : static_cast uint32_t x = x).
    { apply Z.mod_small. change (2 ^ width_bits W32) with (2 ^ 32). lia. }
    rewrite Ex.
    destruct (LeadingZeroCount32_spec x ltac:(lia)) as [R1 R2].
    split; [lia|].
    rewrite Z.pow_add_r by lia.
    change (2 ^ 63) with (2 ^ 32 * 2 ^ 31).
    change (2 ^ 64) with (2 ^ 32 * 2 ^ 32). nia.
  - set (hi := x / 2 ^ 32) in *.
    destruct (LeadingZeroCount32_spec hi ltac:(lia)) as [R1 R2].
    set (n := LeadingZeroCount32 hi) in *.
    split; [lia|].
    assert (P : 0 < 2 ^ n) by (apply Z.pow_pos_nonneg; lia).
    (* hi * 2^n is a multiple of 2^n below 2^32 = 2^(32-n) * 2^n *)
    assert (Q : 2 ^ 32 = 2 ^ (32 - n) * 2 ^ n).
    { rewrite <- Z.pow_add_r by lia. f_equal. lia. }
    assert (hi + 1 <= 2 ^ (32 - n)) by nia.
    change (2 ^ 63) with (2 ^ 31 * 2 ^ 32).
    change (2 ^ 64) with (2 ^ 32 * 2 ^ 32).
    rewrite Dm. nia.
Qed.

(* ------------------------------------------------------------------ *)
(** ** DivideHighBy                                                    *)
(* ------------------------------------------------------------------ *)

(** The [__int128] branch computes the formula of the helper's contract,
    for every non-zero divisor. *)
Lemma DivideHighBy_int128_spec (t : Target) (s : option bool)
  (high divisor : Z) :
  divisor <> 0 ->
  DivideHighBy (mkBuild t WideInt128 s) high divisor
  = Some ((high * 2 ^ 64 / divisor) mod 2 ^ 64).
Proof.
  intros H. unfold DivideHighBy, DivideHighBy_int128. cbn [wide_div].
  apply Z.eqb_neq in H. rewrite H.
  now rewrite Z.shiftl_mul_pow2 by lia.
Qed.

(** The three values the test checks hold in both modelled branches. *)
Lemma DivideHighBy_values (b : Build) :
  DivideHighBy b 1 3 = Some 0x5555555555555555 /\
  DivideHighBy b (2 ^ 63) (2 ^ 63) = Some 0 /\
  DivideHighBy b 1 (2 ^ 64 - 1) = Some 1.
Proof. destruct b as [t [] s]; repeat split; vm_compute; reflexivity. Qed.

(** The correction loop leaves within two iterations when the top digit
    of the normalised divisor has its high bit set: more fuel changes
    nothing, and the loop has a result. *)
Lemma knuth_adjust_total (dh dl qh rem : Z) (fuel : nat) :
  2 ^ 31 <= dh < 2 ^ 32 -> 0 <= rem < 2 ^ 32 ->
  knuth_adjust (2 + fuel) dh dl qh rem = knuth_adjust 2 dh dl qh rem /\
  knuth_adjust 2 dh dl qh rem <> None.
Proof.
  intros Hd Hr.
  assert (W : forall z, 0 <= z < 2 ^ 64 -> static_cast uint64_t z = z)
    by (intros; apply Z.mod_small; assumption).
  cbn [knuth_adjust Nat.add].
  destruct ((base32 <=? qh) || _); [|split; [reflexivity|discriminate]].
  rewrite (W (rem + dh)) by lia.
  destruct (Z.leb_spec base32 (rem + dh)) as [B|B];
    [split; [reflexivity|discriminate]|].
  destruct ((base32 <=? static_cast uint64_t (qh - 1)) || _);
    [|split; [reflexivity|discriminate]].
  rewrite (W (rem + dh + dh)) by lia.
  change base32 with (2 ^ 32) in *.
  destruct (Z.leb_spec (2 ^ 32) (rem + dh + dh)); [|lia].
  split; [reflexivity|discriminate].
Qed.

(** [DivideHighBy] has a result for every non-zero 64-bit divisor. *)
Lemma DivideHighBy_total (b : Build) (high divisor : Z) :
  0 <= high < 2 ^ 64 -> 0 < divisor < 2 ^ 64 ->
  DivideHighBy b high divisor <> None.
Proof.
  intros Hh Hd. unfold DivideHighBy.
  destruct (Z.eqb_spec divisor 0) as [|_]; [lia|].
  destruct (wide_div b); [discriminate|].
  unfold DivideHighBy_portable.
  destruct (high mod divisor =? 0); [discriminate|].
  destruct (LeadingZeroCount64_spec divisor Hd) as [R1 R2].
  set (ldz := LeadingZeroCount64 divisor) in *.
  assert (Dn : static_cast uint64_t (Z.shiftl divisor ldz) = divisor * 2 ^ ldz).
  { rewrite Z.shiftl_mul_pow2 by lia. apply Z.mod_small.
    change (2 ^ width_bits W64) with (2 ^ 64). lia. }
  rewrite Dn.
  set (dn := divisor * 2 ^ ldz) in *.
  assert (Dh : 2 ^ 31 <= static_cast uint32_t (Z.shiftr dn 32) < 2 ^ 32).
  { rewrite u32_of_shiftr32 by lia. split.
    - apply Z.div_le_lower_bound; [lia|].
      change (2 ^ 32 * 2 ^ 31) with (2 ^ 63). lia.
    - apply Z.div_lt_upper_bound; [lia|].
      change (2 ^ 32 * 2 ^ 32) with (2 ^ 64). lia. }
  set (dh := static_cast uint32_t (Z.shiftr dn 32)) in *.
  set (nn := static_cast uint64_t (Z.shiftl (high mod divisor) ldz)).
  assert (Rm : static_cast uint64_t (nn - nn / dh * dh) = nn mod dh).
  { rewrite Z.mod_eq by lia.
    replace (nn - dh * (nn / dh)) with (nn - nn / dh * dh) by lia.
    apply Z.mod_small.
    replace (nn - nn / dh * dh) with (nn mod dh)
      by (rewrite Z.mod_eq by lia; lia).
    pose proof (Z.mod_pos_bound nn dh ltac:(lia)).
    change (2 ^ width_bits W64) with (2 ^ 64). lia. }
  rewrite Rm.
  pose proof (Z.mod_pos_bound nn dh ltac:(lia)) as Mb.
  destruct (knuth_adjust_total dh
              (static_cast uint32_t (Z.land dn 4294967295)) (nn / dh)
              (nn mod dh) 2 ltac:(lia) ltac:(lia)) as [E N].
  change knuth_fuel with (2 + 2)%nat. rewrite E.
  destruct (knuth_adjust 2 dh _ (nn / dh) (nn mod dh)) as [[q r]|];
    [discriminate|contradiction].
Qed.

(* ------------------------------------------------------------------ *)
(** ** ShiftRightUniform                                               *)
(* ------------------------------------------------------------------ *)

Lemma shift_bits (T : LaneType) (sh : Z) :
  0 <= sh < bits_of T ->
  decomposed T sh = sh /\
  forall bit, In bit [32; 16; 8; 4; 2; 1] ->
              Z.land sh bit = 0 \/ Z.land sh bit = bit.
Proof.
  intros H.
  assert (K : shift_bits_ok T sh = true).
  { apply (range_check (shift_bits_ok T) 64).
    - destruct T as [[]|[]]; vm_compute; reflexivity.
    - destruct T as [[]|[]]; cbn in H; lia. }
  unfold shift_bits_ok in K.
  destruct (Z.ltb_spec sh (bits_of T)) as [_|]; [|lia].
  cbn [implb] in K. apply andb_true_iff in K. destruct K as [K1 K2].
  split; [now apply Z.eqb_eq|].
  intros bit Hb. rewrite forallb_forall in K2. specialize (K2 bit Hb).
  apply orb_true_iff in K2. rewrite !Z.eqb_eq in K2. exact K2.
Qed.

Lemma shift_if_spec (sh bit : Z) (v : Vec) :
  Z.land sh bit = 0 \/ Z.land sh bit = bit ->
  shift_if sh bit v = ShiftRight (Z.land sh bit) v.
Proof.
  intros H. unfold shift_if.
  destruct (Z.eqb_spec (Z.land sh bit) 0) as [E|E]; cbn [negb].
  - rewrite E. symmetry. apply ShiftRight_0.
  - destruct H as [H|H]; [contradiction|]. now rewrite H.
Qed.

Lemma portable_shift (T : LaneType) (sh : Z) (v : Vec) :
  0 <= sh < bits_of T ->
  shift_if sh 1 (shift_if sh 2 (shift_if sh 4 (shift_if sh 8
    (if 4 <=? sizeof T
     then shift_if sh 16 (if sizeof T =? 8 then shift_if sh 32 v else v)
     else (if sizeof T =? 8 then shift_if sh 32 v else v)))))
  = ShiftRight sh v.
Proof.
  intros H. destruct (shift_bits T sh H) as [Hsum Hbit].
  assert (N : forall bit, 0 <= Z.land sh bit)
    by (intros; apply Z.land_nonneg; lia).
  assert (E32 : (if sizeof T =? 8 then shift_if sh 32 v else v)
                = ShiftRight (if sizeof T =? 8 then Z.land sh 32 else 0) v).
  { destruct (sizeof T =? 8).
    - apply shift_if_spec, Hbit. cbn; tauto.
    - symmetry; apply ShiftRight_0. }
  assert (E16 : forall u,
             (if 4 <=? sizeof T then shift_if sh 16 u else u)
             = ShiftRight (if 4 <=? sizeof T then Z.land sh 16 else 0) u).
  { intros u. destruct (4 <=? sizeof T).
    - apply shift_if_spec, Hbit. cbn; tauto.
    - symmetry; apply ShiftRight_0. }
  rewrite E16, E32.
  rewrite !shift_if_spec by (apply Hbit; cbn; tauto).
  assert (0 <= (if sizeof T =? 8 then Z.land sh 32 else 0))
    by (destruct (sizeof T =? 8); [apply N|lia]).
  assert (0 <= (if 4 <=? sizeof T then Z.land sh 16 else 0))
    by (destruct (4 <=? sizeof T); [apply N|lia]).
  pose proof (N 8); pose proof (N 4); pose proof (N 2); pose proof (N 1).
  rewrite !ShiftRight_ShiftRight by lia.
  f_equal. unfold decomposed in Hsum. lia.
Qed.

Lemma clamp_shift_range (T : LaneType) (sh : Z) :
  0 <= clamp_shift T sh < bits_of T.
Proof.
  unfold clamp_shift.
  assert (0 < bits_of T) by (destruct T as [[]|[]]; reflexivity).
  destruct (Z.leb_spec sh 0); [lia|].
  destruct (Z.leb_spec (bits_of T) sh); lia.
Qed.

(** [ShiftRightUniform] is the compile-time shift by the clamped count,
    on every target. *)
Lemma ShiftRightUniform_clamp (b : Build) (d : Tag) (v : Vec) (sh : Z) :
  length v = Lanes d ->
  ShiftRightUniform b d v sh = ShiftRight (clamp_shift (TFromD d) sh) v.
Proof.
  intros L. pose proof (clamp_shift_range (TFromD d) sh) as R.
  unfold ShiftRightUniform, clamp_shift in *.
  destruct (Z.leb_spec sh 0) as [H0|H0]; [symmetry; apply ShiftRight_0|].
  assert (Eb : static_cast int_t (sizeof (TFromD d) * 8) = bits_of (TFromD d))
    by (destruct (TFromD d) as [[]|[]]; reflexivity).
  rewrite Eb.
  set (sh' := if bits_of (TFromD d) <=? sh then bits_of (TFromD d) - 1 else sh)
    in *.
  destruct (native_shift b (TFromD d)).
  - unfold ShiftRightVar.
    rewrite (Set_as_map _ _ v) by exact L.
    rewrite lanes2_id_map. unfold ShiftRight. apply map_ext. intros x.
    f_equal. apply static_cast_id.
    unfold Rebind, MakeSigned; cbn [TFromD].
    rewrite bits_of_width in R.
    unfold in_range, LimitsMin, LimitsMax.
    destruct (width_of (TFromD d)); cbn in *; lia.
  - pose proof (portable_shift (TFromD d) sh' v R) as P.
    destruct (4 <=? sizeof (TFromD d)); exact P.
Qed.

(* ------------------------------------------------------------------ *)
(** ** ScalarDivPerLane                                                *)
(* ------------------------------------------------------------------ *)

Lemma buf_set_middle (pre tl : list Z) (x y : Z) :
  buf_set (pre ++ x :: tl) (length pre) y = pre ++ y :: tl.
Proof. induction pre as [|h pre IH]; cbn; [reflexivity|]. now rewrite IH. Qed.

Lemma scalar_loop (g : Z -> Z) (v pre : list Z) :
  fold_left (fun buf i => buf_set buf i (g (nth i buf 0)))
            (seq (length pre) (length v)) (pre ++ v)
  = pre ++ map g v.
Proof.
  revert pre.
  induction v as [|x v IH]; intros pre; cbn [length seq fold_left map].
  - reflexivity.
  - rewrite nth_middle, buf_set_middle.
    specialize (IH (pre ++ [g x])).
    rewrite length_app, Nat.add_1_r, <- !app_assoc in IH. exact IH.
Qed.

Lemma ScalarDivPerLane_map (d : Tag) (v : Vec) (c : Z) :
  length v = Lanes d ->
  ScalarDivPerLane d v c
  = map (fun x => static_cast (TFromD d) (Z.quot x c)) v.
Proof.
  intros L. unfold ScalarDivPerLane, Store, Load.
  rewrite <- L, firstn_all.
  pose proof (scalar_loop
                (fun x => static_cast (TFromD d) (Z.quot x c)) v []) as K.
  cbn [length app] in K. rewrite K.
  rewrite <- (length_map (fun x => static_cast (TFromD d) (x ÷ c)) v) at 1.
  apply firstn_all.
Qed.

(* ------------------------------------------------------------------ *)
(** ** Lane independence                                               *)
(* ------------------------------------------------------------------ *)

Lemma IfThenElse_map {X : Type} (c : X -> bool) (f g : X -> Z)
  (v : list X) :
  IfThenElse (map c v) (map f v) (map g v)
  = map (fun x => if c x then f x else g x) v.
Proof.
  unfold IfThenElse, lanes2.
  induction v as [|x v IH]; cbn; [reflexivity|]. now rewrite IH.
Qed.

(** Bring a vector expression over the lanes of [v] into the form
    [map F v]. *)
Ltac lanewise v L :=
  unfold IntDivU_finish, Zero, PromoteTo, DemoteTo, Add, Sub, Mul, Neg,
         And, Xor, MulHigh, Ne, Lt, XorM, AndM;
  cbn [TFromD Lanes Repartition Rebind];
  try rewrite <- (map_id v);
  repeat first
    [ rewrite (Set_as_map _ _ v) by exact L
    | rewrite lanes2_map_map
    | rewrite IfThenElse_map
    | rewrite (ShiftRightUniform_clamp _ _ (map _ v))
        by (rewrite length_map; exact L)
    | rewrite (ScalarDivPerLane_map _ (map _ v))
        by (rewrite length_map; exact L)
    | progress unfold ShiftRight
    | rewrite map_map ];
  cbn [TFromD Lanes Repartition Rebind].

Lemma IntDivU_lanewise (b : Build) (T : LaneType) (p : DivisorParamsU) :
  exists F : Z -> Z,
    forall (n : nat) (v : Vec),
      length v = n -> IntDivU b (mkTag T n) v p = map F v.
Proof.
  unfold IntDivU. cbn [TFromD].
  destruct (ParamsU.is_pow2 p);
    [|destruct ((ParamsU.shift1 p =? 0) && (ParamsU.shift2 p =? 0)
                && (ParamsU.multiplier p =? 1));
      [|destruct (HWY_INTDIV_SCALAR64 b && (sizeof T =? 8));
        [|destruct (sizeof T =? 1); [|destruct (sizeof T =? 2)]]]];
    eexists; intros n v L;
    (assert (L' : length v = Lanes (mkTag T n)) by exact L);
    lanewise v L'; reflexivity.
Qed.

Lemma IntDivS_lanewise (b : Build) (T : LaneType) (p : DivisorParamsS) :
  exists F : Z -> Z,
    forall (n : nat) (v : Vec),
      length v = n -> IntDivS b (mkTag T n) v p = map F v.
Proof.
  unfold IntDivS. cbn [TFromD].
  destruct (ParamsS.divisor p <? 0);
  (destruct (ParamsS.is_pow2 p);
    [|destruct ((ParamsS.shift p =? 0) && (ParamsS.multiplier p =? 1));
      [|destruct (HWY_INTDIV_SCALAR64 b && (sizeof T =? 8));
        [|destruct (sizeof T =? 1); [|destruct (sizeof T =? 2)]]]]);
    eexists; intros n v L;
    (assert (L' : length v = Lanes (mkTag T n)) by exact L);
    lanewise v L'; reflexivity.
Qed.

Lemma IntDivFloorS_lanewise (b : Build) (T : LaneType) (p : DivisorParamsS) :
  exists F : Z -> Z,
    forall (n : nat) (v : Vec),
      length v = n -> IntDivFloorS b (mkTag T n) v p = map F v.
Proof.
  destruct (IntDivS_lanewise b T p) as [F HF].
  eexists; intros n v L. unfold IntDivFloorS. rewrite (HF n v L).
  assert (L' : length v = Lanes (mkTag T n)) by exact L.
  lanewise v L'. reflexivity.
Qed.

(** Every lane of the result depends on that lane of the dividend only. *)
Lemma IntDivU_lanes (b : Build) (T : LaneType) (p : DivisorParamsU)
  (n : nat) (v : Vec) :
  length v = n ->
  IntDivU b (mkTag T n) v p = map (IntDivU_lane b T p) v.
Proof.
  intros L. destruct (IntDivU_lanewise b T p) as [F HF].
  rewrite (HF n v L). apply map_ext. intros a.
  unfold IntDivU_lane. now rewrite (HF 1%nat [a] eq_refl).
Qed.

Lemma IntDivS_lanes (b : Build) (T : LaneType) (p : DivisorParamsS)
  (n : nat) (v : Vec) :
  length v = n ->
  IntDivS b (mkTag T n) v p = map (IntDivS_lane b T p) v.
Proof.
  intros L. destruct (IntDivS_lanewise b T p) as [F HF].
  rewrite (HF n v L). apply map_ext. intros a.
  unfold IntDivS_lane. now rewrite (HF 1%nat [a] eq_refl).
Qed.

Lemma IntDivFloorS_lanes (b : Build) (T : LaneType) (p : DivisorParamsS)
  (n : nat) (v : Vec) :
  length v = n ->
  IntDivFloorS b (mkTag T n) v p = map (IntDivFloorS_lane b T p) v.
Proof.
  intros L. destruct (IntDivFloorS_lanewise b T p) as [F HF].
  rewrite (HF n v L). apply map_ext. intros a.
  unfold IntDivFloorS_lane. now rewrite (HF 1%nat [a] eq_refl).
Qed.

(* ------------------------------------------------------------------ *)
(** ** The uniform right shift                                         *)
(* ------------------------------------------------------------------ *)

(** The bits of a lane value at and above the top position of its type:
    the sign on signed lanes, zero on unsigned lanes. *)
Lemma high_bits (T : LaneType) (x j : Z) :
  in_range T x -> bits_of T - 1 <= j ->
  Z.testbit x j
  = if IsSigned T then x <? 0
    else if j <? bits_of T then Z.testbit x j else false.
Proof.
  intros R Hj. rewrite bits_of_width in *.
  destruct T as [w|w]; cbn [IsSigned width_of] in *.
  - destruct (Z.ltb_spec j (width_bits w)); [reflexivity|].
    unfold in_range, LimitsMin, LimitsMax in R.
    rewrite <- (Z.mod_small x (2 ^ width_bits w)) by lia.
    apply Z.mod_pow2_bits_high. pose proof (width_bits_pos w). lia.
  - apply signed_range in R. pose proof (width_bits_pos w).
    destruct (Z.ltb_spec x 0) as [Nx|Px].
    + replace x with (Z.lnot (- x - 1)) by (unfold Z.lnot; lia).
      rewrite Z.lnot_spec by lia.
      rewrite <- (Z.mod_small (- x - 1) (2 ^ (width_bits w - 1))) by lia.
      rewrite Z.mod_pow2_bits_high by lia. reflexivity.
    + rewrite <- (Z.mod_small x (2 ^ (width_bits w - 1))) by lia.
      apply Z.mod_pow2_bits_high. lia.
Qed.

(** What [ShiftRight] does to the bits of a lane: bit [i] of the result is
    bit [i + k] of the operand, and the [k] vacated top positions hold the
    sign bit on signed lanes (arithmetic shift) and zero on unsigned lanes
    (logical shift). *)
Lemma ShiftRight_fill (T : LaneType) (x k i : Z) :
  in_range T x -> 0 <= k -> 0 <= i < bits_of T ->
  Z.testbit (Z.shiftr x k) i
  = if i + k <? bits_of T then Z.testbit x (i + k)
    else if IsSigned T then Z.testbit x (bits_of T - 1) else false.
Proof.
  intros R Hk Hi. rewrite Z.shiftr_spec by lia.
  destruct (Z.ltb_spec (i + k) (bits_of T)) as [L|G]; [reflexivity|].
  rewrite (high_bits T x (i + k) R) by lia.
  destruct (IsSigned T) eqn:S.
  - rewrite (high_bits T x (bits_of T - 1) R), S by lia. reflexivity.
  - destruct (Z.ltb_spec (i + k) (bits_of T)); [lia|reflexivity].
Qed.

(** A shifted lane stays in the range of its type. *)
Lemma ShiftRight_in_range (T : LaneType) (x k : Z) :
  in_range T x -> 0 <= k -> in_range T (Z.shiftr x k).
Proof.
  intros R Hk. rewrite Z.shiftr_div_pow2 by exact Hk.
  assert (P : 0 < 2 ^ k) by (apply Z.pow_pos_nonneg; lia).
  unfold in_range in *.
  destruct R as [Lo Hi].
  assert (A1 : LimitsMin T <= 0) by (destruct T as [w|w]; cbn;
    [lia|pose proof (proj2 (half_width w)); lia]).
  assert (A2 : 0 <= LimitsMax T + 1) by (destruct T as [w|w]; cbn;
    [assert (0 < 2 ^ width_bits w) by (apply Z.pow_pos_nonneg;
       pose proof (width_bits_pos w); lia); lia
    |pose proof (proj2 (half_width w)); lia]).
  split.
  - apply Z.div_le_lower_bound; [exact P|]. nia.
  - assert (x / 2 ^ k < LimitsMax T + 1); [|lia].
    apply Z.div_lt_upper_bound; [exact P|]. nia.
Qed.

(** C6.  For every lane type of width [W] and every integer count [s],
    [ShiftRightUniform] leaves the vector unchanged when [s <= 0], behaves
    as the shift by [W - 1] when [s >= W], and otherwise shifts every lane
    right by [s].  The shift is arithmetic on signed and logical on
    unsigned lanes: bit [i] of a result lane is bit [i + k] of the operand
    lane for the applied count [k], and the vacated top positions hold the
    sign bit, respectively zero.  This holds on every target, for the
    native branches and for the decomposition into immediates. *)
Theorem ShiftRightUniform_contract (b : Build) (d : Tag) (v : Vec) (s : Z) :
  length v = Lanes d -> Forall (in_range (TFromD d)) v ->
  (s <= 0 -> ShiftRightUniform b d v s = v) /\
  (bits_of (TFromD d) <= s ->
   ShiftRightUniform b d v s = ShiftRight (bits_of (TFromD d) - 1) v) /\
  (0 < s < bits_of (TFromD d) ->
   ShiftRightUniform b d v s = ShiftRight s v) /\
  (forall (j : nat) (i : Z),
     (j < length v)%nat -> 0 <= i < bits_of (TFromD d) ->
     Z.testbit (nth j (ShiftRightUniform b d v s) 0) i
     = if i + clamp_shift (TFromD d) s <? bits_of (TFromD d)
       then Z.testbit (nth j v 0) (i + clamp_shift (TFromD d) s)
       else if IsSigned (TFromD d)
            then Z.testbit (nth j v 0) (bits_of (TFromD d) - 1)
            else false).
Proof.
  intros L R. rewrite (ShiftRightUniform_clamp b d v s L).
  pose proof (clamp_shift_range (TFromD d) s) as Rc.
  unfold clamp_shift in *.
  assert (0 < bits_of (TFromD d))
    by (destruct (TFromD d) as [[]|[]]; reflexivity).
  repeat split.
  - intros Hs. destruct (Z.leb_spec s 0); [apply ShiftRight_0|lia].
  - intros Hs. destruct (Z.leb_spec s 0); [lia|].
    destruct (Z.leb_spec (bits_of (TFromD d)) s); [reflexivity|lia].
  - intros Hs. destruct (Z.leb_spec s 0); [lia|].
    destruct (Z.leb_spec (bits_of (TFromD d)) s); [lia|reflexivity].
  - intros j i Hj Hi. unfold ShiftRight.
    set (k := if s <=? 0 then 0
              else if bits_of (TFromD d) <=? s then bits_of (TFromD d) - 1
                   else s) in *.
    assert (En : nth j (map (fun x => Z.shiftr x k) v) 0
                 = Z.shiftr (nth j v 0) k).
    { rewrite <- (map_nth (fun x => Z.shiftr x k) v 0 j).
      now rewrite Z.shiftr_0_l. }
    rewrite En.
    apply ShiftRight_fill; [|lia|exact Hi].
    rewrite Forall_forall in R. apply R, nth_In, Hj.
Qed.

Lemma ShiftRightUniform_contract_witness :
  ShiftRightUniform (mkBuild HWY_AVX2 WideInt128 None) (stag W16 4)
    [-32768; -3; 5; 32767] 0 = [-32768; -3; 5; 32767] /\
  ShiftRightUniform (mkBuild HWY_AVX2 WideInt128 None) (stag W16 4)
    [-32768; -3; 5; 32767] 99 = ShiftRight 15 [-32768; -3; 5; 32767] /\
  ShiftRightUniform (mkBuild HWY_AVX2 WideInt128 None) (stag W16 4)
    [-32768; -3; 5; 32767] 11 = ShiftRight 11 [-32768; -3; 5; 32767] /\
  Z.testbit
    (nth 1 (ShiftRightUniform (mkBuild HWY_AVX2 WideInt128 None)
              (stag W16 4) [-32768; -3; 5; 32767] 11) 0) 9
  = Z.testbit (-3) 15.
Proof.
  assert (R : Forall (in_range (TFromD (stag W16 4)))
                [-32768; -3; 5; 32767]).
  { repeat (first [apply Forall_nil | apply Forall_cons]);
      apply in_rangeb_spec; reflexivity. }
  pose proof (fun s =>
    ShiftRightUniform_contract (mkBuild HWY_AVX2 WideInt128 None)
      (stag W16 4) [-32768; -3; 5; 32767] s eq_refl R) as K.
  split; [|split; [|split]].
  - apply (proj1 (K 0)). lia.
  - apply (proj1 (proj2 (K 99))). cbn. lia.
  - apply (proj1 (proj2 (proj2 (K 11)))). cbn. lia.
  - apply (proj2 (proj2 (proj2 (K 11))) 1%nat 9); cbn; lia.
Defined.

(* ------------------------------------------------------------------ *)
(** ** Divisors of unit magnitude                                      *)
(* ------------------------------------------------------------------ *)

Lemma params_one_U (b : Build) (w : Width) :
  ComputeDivisorParamsU b w 1 = Some (ParamsU.mk 1 0 0 true 0 1).
Proof. destruct w; reflexivity. Qed.

Lemma params_one_S (b : Build) (w : Width) :
  ComputeDivisorParamsS b w 1 = Some (ParamsS.mk 1 0 1 true 0).
Proof. destruct w; reflexivity. Qed.

Lemma params_minus_one (b : Build) (w : Width) :
  ComputeDivisorParamsS b w (-1) = Some (ParamsS.mk 1 0 (-1) true 0).
Proof. destruct w; reflexivity. Qed.

(** The power-of-two path with shift 0: the bias vanishes and the lane is
    returned, or negated in its type. *)
Lemma IntDivS_lane_unit (b : Build) (w : Width) (dv a : Z) :
  in_range (SInt w) a ->
  IntDivS_lane b (SInt w) (ParamsS.mk 1 0 dv true 0) a
  = if dv <? 0 then static_cast (SInt w) (- a) else a.
Proof.
  intros H. unfold IntDivS_lane, IntDivS.
  cbn [ParamsS.is_pow2 ParamsS.divisor ParamsS.pow2_shift TFromD].
  destruct (dv <? 0);
    destruct w; cbn -[static_cast Z.shiftr Z.land Z.add Z.opp];
    match goal with
    | |- context [Z.land ?s ?m] =>
        replace m with 0 by reflexivity; rewrite (Z.land_0_r s)
    end;
    rewrite Z.add_0_r, (static_cast_id _ a H); reflexivity.
Qed.

Lemma neg_in_range (w : Width) (a : Z) :
  in_range (SInt w) a -> a <> LimitsMin (SInt w) -> in_range (SInt w) (- a).
Proof. unfold in_range, LimitsMin, LimitsMax. lia. Qed.

(** C7.  With divisor 1, [IntDiv] composed with [ComputeDivisorParams] is
    the identity on every dividend, for unsigned and for signed lanes of
    every width; with divisor -1 on signed lanes, every dividend other
    than the minimum is negated. *)
Theorem unit_divisor_identity_negation (b : Build) (w : Width) (n : nat)
  (v : Vec) :
  length v = n ->
  IntDivWithU b (utag w n) v 1 = Some v /\
  (Forall (in_range (SInt w)) v ->
   IntDivWithS b (stag w n) v 1 = Some v) /\
  (Forall (fun a => in_range (SInt w) a /\ a <> LimitsMin (SInt w)) v ->
   IntDivWithS b (stag w n) v (-1) = Some (map Z.opp v)).
Proof.
  intros L. unfold IntDivWithU, IntDivWithS, utag, stag. cbn [TFromD width_of].
  rewrite params_one_U, params_one_S, params_minus_one. cbn [obind].
  split; [|split].
  - unfold IntDivU. cbn [ParamsU.is_pow2 ParamsU.pow2_shift].
    unfold ShiftRightUniform. reflexivity.
  - intros R. rewrite (IntDivS_lanes b (SInt w) _ n v L). f_equal.
    rewrite <- (map_id v) at 2. apply map_ext_Forall.
    eapply Forall_impl; [|exact R]. intros a Ha.
    now rewrite IntDivS_lane_unit.
  - intros R. rewrite (IntDivS_lanes b (SInt w) _ n v L). f_equal.
    apply map_ext_Forall.
    eapply Forall_impl; [|exact R]. intros a [Ha Hm].
    rewrite IntDivS_lane_unit by exact Ha. cbn [Z.ltb Z.compare].
    apply static_cast_id, neg_in_range; assumption.
Qed.

Lemma unit_divisor_identity_negation_witness :
  IntDivWithU (mkBuild HWY_OTHER WideInt128 None) (utag W8 3) [0; 77; 255] 1
    = Some [0; 77; 255] /\
  IntDivWithS (mkBuild HWY_OTHER WideInt128 None) (stag W8 3) [-128; 0; 127] 1
    = Some [-128; 0; 127] /\
  IntDivWithS (mkBuild HWY_OTHER WideInt128 None) (stag W8 3) [-127; 0; 127]
    (-1) = Some [127; 0; -127].
Proof.
  split; [|split].
  - apply (proj1 (unit_divisor_identity_negation
                    (mkBuild HWY_OTHER WideInt128 None) W8 3 [0; 77; 255]
                    eq_refl)).
  - apply (proj1 (proj2 (unit_divisor_identity_negation
                    (mkBuild HWY_OTHER WideInt128 None) W8 3 [-128; 0; 127]
                    eq_refl))).
    repeat (first [apply Forall_nil | apply Forall_cons]);
      apply in_rangeb_spec; reflexivity.
  - apply (proj2 (proj2 (unit_divisor_identity_negation
                    (mkBuild HWY_OTHER WideInt128 None) W8 3 [-127; 0; 127]
                    eq_refl))).
    repeat (first [apply Forall_nil | apply Forall_cons]);
      (split; [apply in_rangeb_spec; reflexivity
              |intro E; vm_compute in E; discriminate E]).
Defined.

(* ------------------------------------------------------------------ *)
(** ** The minimum divided by -1                                       *)
(* ------------------------------------------------------------------ *)

Lemma LimitsMin_in_range (T : LaneType) : in_range T (LimitsMin T).
Proof. destruct T as [[]|[]]; apply in_rangeb_spec; reflexivity. Qed.

Lemma neg_LimitsMin_wraps (w : Width) :
  static_cast (SInt w) (- LimitsMin (SInt w)) = LimitsMin (SInt w).
Proof. destruct w; reflexivity. Qed.

(** C4.  For every signed width, [IntDiv] applied to a vector whose lanes
    all hold the minimum value, with the parameters of divisor -1, returns
    the minimum in every lane (wrap-around); the evaluation has a result
    and it is this one, on every target. *)
Theorem int_min_by_minus_one_wraps (b : Build) (w : Width) (n : nat) :
  IntDivWithS b (stag w n) (Set_ (stag w n) (LimitsMin (SInt w))) (-1)
  = Some (Set_ (stag w n) (LimitsMin (SInt w))).
Proof.
  unfold IntDivWithS, stag. cbn [TFromD width_of].
  rewrite params_minus_one. cbn [obind]. f_equal.
  rewrite (IntDivS_lanes b (SInt w) _ n) by apply length_Set.
  unfold Set_. cbn [TFromD Lanes]. rewrite map_repeat. f_equal.
  rewrite (static_cast_id _ _ (LimitsMin_in_range (SInt w))).
  rewrite IntDivS_lane_unit by apply LimitsMin_in_range.
  cbn [Z.ltb Z.compare]. apply neg_LimitsMin_wraps.
Qed.

(* ------------------------------------------------------------------ *)
(** ** The floor correction                                            *)
(* ------------------------------------------------------------------ *)

(** What [IntDivFloor] does to the truncating quotient [q] of a lane: it
    subtracts 1 exactly when the dividend differs from the wrapping product
    [q * divisor] and the signs of dividend and divisor differ. *)
Lemma IntDivFloorS_lane_correction (b : Build) (w : Width)
  (p : DivisorParamsS) (a : Z) :
  in_range (SInt w) (ParamsS.divisor p) ->
  IntDivFloorS_lane b (SInt w) p a
  = let q := IntDivS_lane b (SInt w) p a in
    static_cast (SInt w)
      (q - (if negb (a =? static_cast (SInt w) (q * ParamsS.divisor p))
               && xorb (a <? 0) (ParamsS.divisor p <? 0)
            then 1 else 0)).
Proof.
  intros R. unfold IntDivFloorS_lane, IntDivFloorS. cbn [TFromD].
  rewrite (IntDivS_lanes b (SInt w) p 1 [a] eq_refl).
  cbn [map]. cbv zeta.
  set (q := IntDivS_lane b (SInt w) p a).
  destruct w; cbn -[static_cast Z.mul Z.sub Z.ltb Z.eqb];
    rewrite (static_cast_id _ _ R); reflexivity.
Qed.

(** C10.  For every signed width, [IntDivFloor] applied to a vector whose
    lanes all hold the minimum value, with the parameters of divisor -1,
    returns the minimum in every lane: the truncating quotient wraps to
    the minimum, the wrapping product of quotient and divisor equals the
    dividend, and the correction subtracts nothing. *)
Theorem floor_int_min_by_minus_one (b : Build) (w : Width) (n : nat) :
  IntDivFloorWithS b (stag w n) (Set_ (stag w n) (LimitsMin (SInt w))) (-1)
  = Some (Set_ (stag w n) (LimitsMin (SInt w))).
Proof.
  unfold IntDivFloorWithS, stag. cbn [TFromD width_of].
  rewrite params_minus_one. cbn [obind]. f_equal.
  rewrite (IntDivFloorS_lanes b (SInt w) _ n) by apply length_Set.
  unfold Set_. cbn [TFromD Lanes]. rewrite map_repeat. f_equal.
  rewrite (static_cast_id _ _ (LimitsMin_in_range (SInt w))).
  rewrite IntDivFloorS_lane_correction
    by (cbn [ParamsS.divisor]; destruct w; apply in_rangeb_spec; reflexivity).
  cbv zeta. rewrite IntDivS_lane_unit by apply LimitsMin_in_range.
  cbn [Z.ltb Z.compare ParamsS.divisor]. rewrite neg_LimitsMin_wraps.
  destruct w; reflexivity.
Qed.

(* ------------------------------------------------------------------ *)
(** ** The convenience entry points                                    *)
(* ------------------------------------------------------------------ *)

Lemma pow2_params_U (b : Build) (w : Width) (divisor : Z) :
  divisor <> 0 -> IsPow2 divisor = true ->
  ComputeDivisorParamsU b w divisor
  = Some (ParamsU.mk 1 0 0 true
            (match w with
             | W64 => CountTrailingZeros64 divisor
             | _ => CountTrailingZeros32 divisor
             end) divisor).
Proof.
  intros Hz Hp. apply Z.eqb_neq in Hz.
  destruct w; cbn [ComputeDivisorParamsU];
    unfold ComputeDivisorParams_u8, ComputeDivisorParams_u16,
           ComputeDivisorParams_u32, ComputeDivisorParams_u64;
    rewrite Hz, Hp; reflexivity.
Qed.

Lemma unsigned_fits_wide (w : Width) (z : Z) :
  in_range (UInt w) z ->
  static_cast uint64_t z = z /\
  (w <> W64 -> static_cast uint32_t z = z).
Proof.
  intros H. split; [|intros Hw]; apply static_cast_id;
    unfold in_range, LimitsMin, LimitsMax in *; destruct w;
    cbn in *; try lia; congruence.
Qed.

(** C9.  For every lane type, every dividend vector and every divisor of
    the lane type, [DivideByScalar] returns exactly what [IntDiv] returns
    on the parameters of [ComputeDivisorParams], also where the unsigned
    [DivideByScalar] takes its power-of-two shortcut, and likewise for
    [FloorDivideByScalar] and [IntDivFloor]; on a zero divisor both sides
    abort. *)
Theorem DivideByScalar_is_composition (b : Build) (w : Width) (n : nat)
  (v : Vec) (divisor : Z) :
  (in_range (UInt w) divisor ->
   DivideByScalarU b (utag w n) v divisor
     = IntDivWithU b (utag w n) v divisor /\
   FloorDivideByScalarU b (utag w n) v divisor
     = IntDivFloorWithU b (utag w n) v divisor) /\
  DivideByScalarS b (stag w n) v divisor
    = IntDivWithS b (stag w n) v divisor /\
  FloorDivideByScalarS b (stag w n) v divisor
    = IntDivFloorWithS b (stag w n) v divisor.
Proof.
  assert (U : in_range (UInt w) divisor ->
              DivideByScalarU b (utag w n) v divisor
              = IntDivWithU b (utag w n) v divisor).
  { intros R. unfold DivideByScalarU, IntDivWithU, utag.
    cbn [TFromD width_of].
    destruct (Z.eqb_spec divisor 0) as [E|E].
    - subst divisor. destruct w; reflexivity.
    - destruct (IsPow2 divisor) eqn:P; [|reflexivity].
      rewrite (pow2_params_U b w divisor E P). cbn [obind].
      unfold IntDivU. cbn [ParamsU.is_pow2 ParamsU.pow2_shift]. do 2 f_equal.
      destruct (unsigned_fits_wide w divisor R) as [E64 E32].
      destruct w; cbn [sizeof width_of Z.eqb Pos.eqb];
        rewrite ?E64, ?E32 by discriminate; reflexivity. }
  assert (S : forall k : DivisorParamsS -> option Vec,
             (if divisor =? 0 then None
              else params <- ComputeDivisorParamsS b w divisor ;; k params)
             = (params <- ComputeDivisorParamsS b w divisor ;; k params)).
  { intros k. destruct (Z.eqb_spec divisor 0) as [E|E]; [|reflexivity].
    subst divisor. destruct w; reflexivity. }
  split; [intros R; split|split].
  - apply U, R.
  - unfold FloorDivideByScalarU, IntDivFloorWithU, IntDivFloorU.
    apply U, R.
  - unfold DivideByScalarS, IntDivWithS, stag. cbn [TFromD width_of].
    apply S.
  - unfold FloorDivideByScalarS, IntDivFloorWithS, stag.
    cbn [TFromD width_of]. apply S.
Qed.

Lemma DivideByScalar_is_composition_witness :
  (DivideByScalarU (mkBuild HWY_OTHER WidePortable None) (utag W32 3)
     [0; 4096; 4294967295] 4096
   = IntDivWithU (mkBuild HWY_OTHER WidePortable None) (utag W32 3)
       [0; 4096; 4294967295] 4096 /\
   FloorDivideByScalarU (mkBuild HWY_OTHER WidePortable None) (utag W32 3)
     [0; 4096; 4294967295] 4096
   = IntDivFloorWithU (mkBuild HWY_OTHER WidePortable None) (utag W32 3)
       [0; 4096; 4294967295] 4096).
Proof.
  apply (proj1 (DivideByScalar_is_composition
                  (mkBuild HWY_OTHER WidePortable None) W32 3
                  [0; 4096; 4294967295] 4096)).
  apply in_rangeb_spec. reflexivity.
Defined.

(* ------------------------------------------------------------------ *)
(** ** The minimum value as divisor                                    *)
(* ------------------------------------------------------------------ *)

(** C5, as stated, fails at width 8: the block returned for divisor -128
    does not carry multiplier 0x81 and shift 6. *)
Lemma min_divisor_tuple_counterexample :
  ~ (exists p : DivisorParamsS,
       ComputeDivisorParamsS (mkBuild HWY_OTHER WideInt128 None) W8 (-128)
         = Some p /\
       (ParamsS.multiplier p, ParamsS.shift p) = min_branch_tuple W8).
Proof.
  intros [p [H K]]. vm_compute in H. inversion H; subst p.
  vm_compute in K. discriminate K.
Qed.

(** C5, amended.  For every signed width, the parameter block of the
    minimum representable divisor is the power-of-two block: [is_pow2] is
    set, [pow2_shift = W - 1], and multiplier and shift hold 1 and 0.  The
    magnitude [2^(W-1)] passes [IsPow2], whose arm returns first. *)
Theorem min_divisor_is_pow2 (b : Build) (w : Width) :
  ComputeDivisorParamsS b w (LimitsMin (SInt w))
  = Some (ParamsS.mk 1 0 (LimitsMin (SInt w)) true (width_bits w - 1)).
Proof. destruct w; reflexivity. Qed.

(** The tabulated branch is never taken: a block with [is_pow2] unset is
    not the block of the minimum value. *)
Lemma min_branch_unreachable (b : Build) (w : Width) (divisor : Z)
  (p : DivisorParamsS) :
  in_range (SInt w) divisor ->
  ComputeDivisorParamsS b w divisor = Some p ->
  ParamsS.is_pow2 p = false ->
  static_cast (UInt w) divisor <> 2 ^ (width_bits w - 1).
Proof.
  intros R H F E.
  assert (D : divisor = LimitsMin (SInt w)).
  { unfold in_range, LimitsMin, LimitsMax, static_cast in *.
    destruct w; cbn in *;
      match type of E with
      | ?x mod ?m = _ => pose proof (Z.mod_pos_bound x m);
                         pose proof (Z.div_mod x m)
      end; lia. }
  subst divisor.
  assert (K : ParamsS.is_pow2 p = true)
    by (destruct w; inversion H; reflexivity).
  congruence.
Qed.

(* ------------------------------------------------------------------ *)
(** ** Powers of two                                                   *)
(* ------------------------------------------------------------------ *)

(** [IsPow2] accepts exactly the powers of two. *)
Lemma IsPow2_spec (x : Z) :
  IsPow2 x = true -> exists k, 0 <= k /\ x = 2 ^ k.
Proof.
  unfold IsPow2. rewrite andb_true_iff, Z.ltb_lt, Z.eqb_eq.
  intros [Hx Hl]. exists (Z.log2 x).
  pose proof (Z.log2_nonneg x) as Hk. split; [exact Hk|].
  destruct (Z.log2_spec x Hx) as [Lo Hi].
  destruct (Z.eq_dec x (2 ^ Z.log2 x)) as [E|E]; [exact E|exfalso].
  (* otherwise x and x - 1 share their top bit *)
  assert (L1 : Z.log2 (x - 1) = Z.log2 x).
  { apply Z.log2_unique; [exact Hk|]. lia. }
  assert (B : Z.testbit (Z.land x (x - 1)) (Z.log2 x) = true).
  { rewrite Z.land_spec, Z.bit_log2 by lia.
    rewrite <- L1. rewrite Z.bit_log2; [reflexivity|].
    assert (0 < 2 ^ Z.log2 x) by (apply Z.pow_pos_nonneg; lia). lia. }
  rewrite Hl, Z.bits_0 in B. discriminate B.
Qed.

Lemma IsPow2_pow2 (k : Z) : 0 <= k -> IsPow2 (2 ^ k) = true.
Proof.
  intros Hk. unfold IsPow2.
  assert (P : 0 < 2 ^ k) by (apply Z.pow_pos_nonneg; lia).
  apply andb_true_iff. split; [now apply Z.ltb_lt|]. apply Z.eqb_eq.
  replace (2 ^ k - 1) with (Z.ones k) by (rewrite Z.ones_equiv; lia).
  apply Z.bits_inj'. intros i Hi.
  rewrite Z.land_spec, Z.bits_0, Z.pow2_bits_eqb by lia.
  destruct (Z.eqb_spec k i) as [E|E]; [|reflexivity].
  subst i. rewrite Z.ones_spec_high by lia. reflexivity.
Qed.

(** The trailing-zero counts recover the exponent. *)
Lemma CountTrailingZeros32_pow2 (k : Z) :
  0 <= k < 32 -> CountTrailingZeros32 (2 ^ k) = k.
Proof.
  intros H. apply Z.eqb_eq.
  apply (range_check (fun k => CountTrailingZeros32 (2 ^ k) =? k) 32);
    [vm_compute; reflexivity|exact H].
Qed.

Lemma CountTrailingZeros64_pow2 (k : Z) :
  0 <= k < 64 -> CountTrailingZeros64 (2 ^ k) = k.
Proof.
  intros H. apply Z.eqb_eq.
  apply (range_check (fun k => CountTrailingZeros64 (2 ^ k) =? k) 64);
    [vm_compute; reflexivity|exact H].
Qed.

(** The loop of [CountTrailingZeros32] stops by itself on a non-zero
    32-bit value: fuel beyond 32 is never used. *)
Lemma ctz_loop_fuel (n : nat) :
  forall (x c : Z) (extra : nat),
    0 < x < 2 ^ Z.of_nat n ->
    ctz_loop (n + extra) x c = ctz_loop n x c.
Proof.
  induction n as [|n IH]; intros x c extra H.
  - cbn in H. lia.
  - cbn [Nat.add ctz_loop].
    destruct (Z.eqb_spec (Z.land x 1) 0) as [E|E]; [|reflexivity].
    apply IH.
    change 1 with (Z.ones 1) in E. rewrite Z.land_ones in E by lia.
    change (2 ^ 1) with 2 in E.
    rewrite Z.shiftr_div_pow2 by lia. change (2 ^ 1) with 2.
    rewrite Nat2Z.inj_succ, Z.pow_succ_r in H by lia.
    pose proof (Z.div_mod x 2 ltac:(lia)). lia.
Qed.

(* ------------------------------------------------------------------ *)
(** ** Division by multiplication: the arithmetic                      *)
(* ------------------------------------------------------------------ *)


Section Unsigned.
Variables N l d : Z.
Hypothesis HN : 0 < N.
Hypothesis Hl : 1 <= l <= N.
Hypothesis Hd : 2 ^ (l - 1) < d <= 2 ^ l.

Let m := magicU N l d.

Let X := 2 ^ (N + l).




End Unsigned.

(* ------------------------------------------------------------------ *)
(** ** The unsigned parameters at widths 32 and 64                     *)
(* ------------------------------------------------------------------ *)

Lemma normalised_bounds (x n W : Z) :
  0 <= n < W -> 2 ^ (W - 1) <= x * 2 ^ n < 2 ^ W ->
  2 ^ (W - 1 - n) <= x < 2 ^ (W - n).
Proof.
  intros Hn H.
  assert (P : 0 < 2 ^ n) by (apply Z.pow_pos_nonneg; lia).
  assert (E1 : 2 ^ W = 2 ^ (W - n) * 2 ^ n)
    by (rewrite <- Z.pow_add_r by lia; f_equal; lia).
  assert (E2 : 2 ^ (W - 1) = 2 ^ (W - 1 - n) * 2 ^ n)
    by (rewrite <- Z.pow_add_r by lia; f_equal; lia).
  nia.
Qed.

Lemma not_pow2_ge_3 (d : Z) : 0 < d -> IsPow2 d = false -> 3 <= d.
Proof.
  intros Hd Hp.
  destruct (Z.eq_dec d 1) as [->|]; [discriminate Hp|].
  destruct (Z.eq_dec d 2) as [->|]; [discriminate Hp|]. lia.
Qed.

(** [32 - LeadingZeroCount32(d - 1)] is the ceiling of the binary
    logarithm of [d]. *)
Lemma ceil_log2_32 (d : Z) :
  3 <= d <= 2 ^ 32 ->
  let l := 32 - LeadingZeroCount32 (d - 1) in
  2 <= l <= 32 /\ 2 ^ (l - 1) < d <= 2 ^ l.
Proof.
  intros H l.
  destruct (LeadingZeroCount32_spec (d - 1) ltac:(lia)) as [R1 R2].
  pose proof (normalised_bounds (d - 1) (LeadingZeroCount32 (d - 1)) 32
                ltac:(lia) R2) as B.
  unfold l. set (n := LeadingZeroCount32 (d - 1)) in *.
  replace (32 - n - 1) with (32 - 1 - n) by lia.
  split; [|lia]. split; [|lia].
  destruct (Z.eq_dec n 31) as [E|E]; [|lia].
  rewrite E in B. change (2 ^ (32 - 31)) with 2 in B. lia.
Qed.

Lemma ceil_log2_64 (d : Z) :
  3 <= d <= 2 ^ 64 ->
  let l := 64 - LeadingZeroCount64 (d - 1) in
  2 <= l <= 64 /\ 2 ^ (l - 1) < d <= 2 ^ l.
Proof.
  intros H l.
  destruct (LeadingZeroCount64_spec (d - 1) ltac:(lia)) as [R1 R2].
  pose proof (normalised_bounds (d - 1) (LeadingZeroCount64 (d - 1)) 64
                ltac:(lia) R2) as B.
  unfold l. set (n := LeadingZeroCount64 (d - 1)) in *.
  replace (64 - n - 1) with (64 - 1 - n) by lia.
  split; [|lia]. split; [|lia].
  destruct (Z.eq_dec n 63) as [E|E]; [|lia].
  rewrite E in B. change (2 ^ (64 - 63)) with 2 in B. lia.
Qed.

Lemma u32_mod' (z : Z) : static_cast uint32_t z = z mod 2 ^ 32.
Proof. reflexivity. Qed.

Lemma u32_id (z : Z) : 0 <= z < 2 ^ 32 -> static_cast uint32_t z = z.
Proof. intros H. apply Z.mod_small. exact H. Qed.

Lemma u64_mod (z : Z) : static_cast uint64_t z = z mod 2 ^ 64.
Proof. reflexivity. Qed.

Lemma u64_id (z : Z) : 0 <= z < 2 ^ 64 -> static_cast uint64_t z = z.
Proof. intros H. apply Z.mod_small. exact H. Qed.

Lemma i32_id (z : Z) : - 2 ^ 31 <= z < 2 ^ 31 -> static_cast int32_t z = z.
Proof. intros H. apply static_cast_id. unfold in_range; cbn; lia. Qed.



(* ------------------------------------------------------------------ *)
(** ** The unsigned evaluation at widths 32 and 64                     *)
(* ------------------------------------------------------------------ *)


Lemma uint_id (w : Width) (z : Z) :
  0 <= z < 2 ^ width_bits w -> static_cast (UInt w) z = z.
Proof. intros H. apply Z.mod_small. exact H. Qed.

(** The lanes of a one-lane evaluation. *)
Ltac one_lane :=
  unfold IntDivU_finish, Repartition, PromoteTo, DemoteTo, Set_, MulHigh,
         Sub, Add, Mul, Neg, And, Xor, ShiftRight, lanes2;
  cbn [Lanes TFromD repeat combine map fst snd];
  repeat (rewrite (ShiftRightUniform_clamp _ _ [_]) by reflexivity;
          unfold ShiftRight; cbn [map hd TFromD combine fst snd]).




(** A power of two within the lane type, and its block. *)
Lemma pow2_in_range (w : Width) (d : Z) :
  0 < d < 2 ^ width_bits w -> IsPow2 d = true ->
  exists k, 0 <= k < width_bits w /\ d = 2 ^ k /\
    forall b, ComputeDivisorParamsU b w d
              = Some (ParamsU.mk 1 0 0 true k d).
Proof.
  intros Hd Hp. destruct (IsPow2_spec d Hp) as (k & Hk & E).
  assert (Kw : k < width_bits w).
  { destruct (Z.lt_ge_cases k (width_bits w)) as [|G]; [assumption|].
    pose proof (width_bits_pos w).
    apply (Z.pow_le_mono_r 2) in G; lia. }
  exists k. split; [lia|]. split; [exact E|]. intros b.
  rewrite pow2_params_U by (exact Hp || lia). do 2 f_equal.
  rewrite E.
  destruct w; cbn [width_bits] in Kw;
    (apply CountTrailingZeros32_pow2 || apply CountTrailingZeros64_pow2); lia.
Qed.

(** The shape of the 64-bit block in any build: [DivideHighBy] has a
    result, and the fields the scalar fallback reads are in place. *)
Lemma params_u64_shape (b : Build) (d : Z) :
  0 < d < 2 ^ 64 -> IsPow2 d = false ->
  exists m l, ComputeDivisorParams_u64 b d
              = Some (ParamsU.mk m 1 l false unset d).
Proof.
  intros Hd Hp. pose proof (not_pow2_ge_3 d ltac:(lia) Hp) as H3.
  unfold ComputeDivisorParams_u64. rewrite Hp.
  destruct (Z.eqb_spec d 0); [lia|]. destruct (Z.eqb_spec d 1); [lia|].
  match goal with
  | |- context [DivideHighBy b ?h d] =>
      assert (Hh : 0 <= h < 2 ^ 64)
        by (destruct (_ <? 64); apply (Z.mod_pos_bound _ (2 ^ 64)); lia);
      pose proof (DivideHighBy_total b h d Hh Hd) as Tt;
      destruct (DivideHighBy b h d) as [q|]; [|contradiction]
  end.
  cbn [obind]. eauto.
Qed.

(* ------------------------------------------------------------------ *)
(** ** The unsigned kernel at widths 8 and 16                          *)
(* ------------------------------------------------------------------ *)








(* ------------------------------------------------------------------ *)
(** ** Signed division by multiplication: the arithmetic               *)
(* ------------------------------------------------------------------ *)

Section Signed.
Variables N sh ad : Z.
Hypothesis HN : 2 <= N.
Hypothesis Hsh : 0 <= sh <= N - 2.
Hypothesis Had : 2 ^ sh < ad <= 2 ^ (sh + 1).

Let m := magicS N sh ad.
Let X := 2 ^ (N + sh).




End Signed.

(* ------------------------------------------------------------------ *)
(** ** The signed parameters                                           *)
(* ------------------------------------------------------------------ *)

(** The magnitude the signed specialisations work on. *)
Lemma abs_divisor_abs (w : Width) (d : Z) :
  in_range (SInt w) d -> abs_divisor (SInt w) d = Z.abs d.
Proof.
  intros R. apply signed_range in R. unfold abs_divisor, MakeUnsigned.
  cbn [width_of].
  destruct (half_width w) as [E P].
  destruct (Z.ltb_spec d 0) as [Hn|Hp].
  - rewrite Z.abs_neq by lia.
    assert (C : static_cast (UInt w)
                  (static_cast match w with W64 => int64_t | _ => int_t end
                     (- d)) = - d); [|exact C].
    destruct (Z.eq_dec d (- 2 ^ (width_bits w - 1))) as [Em|Em].
    + subst d. destruct w; reflexivity.
    + assert (I : static_cast match w with W64 => int64_t | _ => int_t end
                    (- d) = - d).
      { destruct w; apply static_cast_id, signed_range;
          cbn [width_bits] in *; cbn; lia. }
      rewrite I. apply uint_id. lia.
  - rewrite Z.abs_eq by lia. apply uint_id. lia.
Qed.



Lemma params_i64_shape (b : Build) (d : Z) :
  in_range int64_t d -> d <> 0 -> IsPow2 (Z.abs d) = false ->
  exists m sh, 1 <= sh /\
    ComputeDivisorParams_i64 b d = Some (ParamsS.mk m sh d false unset).
Proof.
  intros R Hz Hp.
  pose proof (abs_divisor_abs W64 d R) as Ea.
  apply signed_range in R. cbn [width_bits] in R.
  pose proof (not_pow2_ge_3 (Z.abs d) ltac:(lia) Hp) as H3.
  assert (Hm : Z.abs d <> 2 ^ 63).
  { intros E. rewrite E in Hp. discriminate Hp. }
  destruct (ceil_log2_64 (Z.abs d) ltac:(lia)) as [Rl Bl].
  set (l := 64 - LeadingZeroCount64 (Z.abs d - 1)) in *.
  unfold ComputeDivisorParams_i64.
  change (abs_divisor int64_t d) with (abs_divisor (SInt W64) d).
  rewrite Ea, Hp.
  destruct (Z.eqb_spec d 0); [lia|].
  destruct (Z.eqb_spec (Z.abs d) 1); [lia|].
  assert (Hc : (static_cast uint64_t d =? 9223372036854775808) = false).
  { apply Z.eqb_neq. intros E. rewrite u64_mod in E.
    pose proof (Z.mod_pos_bound d (2 ^ 64) ltac:(lia)).
    pose proof (Z.div_mod d (2 ^ 64) ltac:(lia)). lia. }
  rewrite Hc.
  rewrite (u64_id (Z.abs d - 1)) by lia.
  replace (63 - LeadingZeroCount64 (Z.abs d - 1)) with (l - 1)
    by (unfold l; lia).
  change unsigned_t with uint32_t. change int_t with int32_t.
  rewrite (u32_id (l - 1)) by lia. rewrite (i32_id (l - 1)) by lia.
  match goal with
  | |- context [DivideHighBy b ?h (Z.abs d)] =>
      assert (Hh : 0 <= h < 2 ^ 64)
        by (apply (Z.mod_pos_bound _ (2 ^ 64)); lia);
      pose proof (DivideHighBy_total b h (Z.abs d) Hh ltac:(lia)) as Tt;
      destruct (DivideHighBy b h (Z.abs d)) as [q|]; [|contradiction]
  end.
  cbn [obind]. eexists; exists (l - 1). split; [lia|reflexivity].
Qed.

(* ------------------------------------------------------------------ *)
(** ** The signed evaluation                                           *)
(* ------------------------------------------------------------------ *)

(** A quotient by a magnitude of at least 2 is at most half the
    dividend. *)
Lemma quot_halves (a ad : Z) :
  2 <= ad -> Z.abs (Z.quot a ad) * 2 <= Z.abs a.
Proof.
  intros H.
  assert (K : forall c, 0 <= c -> 0 <= c / ad /\ c / ad * 2 <= c).
  { intros c Hc. split; [apply Z.div_pos; lia|].
    pose proof (Z.mul_div_le c ad ltac:(lia)).
    assert (0 <= c / ad) by (apply Z.div_pos; lia). nia. }
  destruct (Z.lt_ge_cases a 0) as [Na|Pa].
  - replace a with (- (- a)) at 1 by lia.
    rewrite Z.quot_opp_l, Z.quot_div_nonneg by lia.
    destruct (K (- a) ltac:(lia)). lia.
  - rewrite Z.quot_div_nonneg by lia. destruct (K a Pa). lia.
Qed.







Lemma pow2_params_S (b : Build) (w : Width) (d : Z) :
  in_range (SInt w) d -> d <> 0 -> IsPow2 (Z.abs d) = true ->
  exists k, 0 <= k < width_bits w /\ Z.abs d = 2 ^ k /\
    ComputeDivisorParamsS b w d = Some (ParamsS.mk 1 0 d true k).
Proof.
  intros R Hz Hp. pose proof (abs_divisor_abs w d R) as Ea.
  apply signed_range in R. destruct (half_width w) as [E P].
  destruct (IsPow2_spec _ Hp) as (k & Hk & Ek).
  assert (Kw : k < width_bits w).
  { destruct (Z.lt_ge_cases k (width_bits w)) as [|G]; [assumption|].
    pose proof (width_bits_pos w).
    apply (Z.pow_le_mono_r 2) in G; lia. }
  exists k. split; [lia|]. split; [exact Ek|].
  apply Z.eqb_neq in Hz.
  destruct w; cbn [ComputeDivisorParamsS];
    unfold ComputeDivisorParams_i8, ComputeDivisorParams_i16,
           ComputeDivisorParams_i32, ComputeDivisorParams_i64;
    rewrite Hz;
    [change (abs_divisor int8_t d) with (abs_divisor (SInt W8) d)
    |change (abs_divisor int16_t d) with (abs_divisor (SInt W16) d)
    |change (abs_divisor int32_t d) with (abs_divisor (SInt W32) d)
    |change (abs_divisor int64_t d) with (abs_divisor (SInt W64) d)];
    rewrite Ea, Hp; unfold pow2_paramsS; do 2 f_equal; rewrite Ek;
    cbn [width_bits] in Kw;
    (apply CountTrailingZeros32_pow2 || apply CountTrailingZeros64_pow2); lia.
Qed.

(* ------------------------------------------------------------------ *)
(** ** Truncating and flooring quotients                               *)
(* ------------------------------------------------------------------ *)

Lemma quot_by_sign (a d : Z) :
  d <> 0 ->
  Z.quot a d = if d <? 0 then - Z.quot a (Z.abs d) else Z.quot a (Z.abs d).
Proof.
  intros H. destruct (Z.ltb_spec d 0).
  - rewrite Z.abs_neq by lia. rewrite Z.quot_opp_r by lia. lia.
  - rewrite Z.abs_eq by lia. reflexivity.
Qed.

(** The truncating quotient and its product with the divisor stay
    between 0 and the dividend. *)
Lemma quot_bounds (a d : Z) :
  d <> 0 ->
  Z.abs (Z.quot a d) <= Z.abs a /\
  Z.min a 0 <= Z.quot a d * d <= Z.max a 0.
Proof.
  intros H.
  assert (K : forall c, 0 <= c ->
                 0 <= c / Z.abs d <= c /\ 0 <= c / Z.abs d * Z.abs d <= c).
  { intros c Hc.
    pose proof (Z.mul_div_le c (Z.abs d) ltac:(lia)).
    assert (0 <= c / Z.abs d) by (apply Z.div_pos; lia). nia. }
  rewrite quot_by_sign by exact H.
  destruct (Z.lt_ge_cases a 0) as [Na|Pa].
  - set (c := - a). assert (Ea : a = - c) by (unfold c; lia).
    assert (Hc : 0 < c) by (unfold c; lia). clearbody c. subst a.
    rewrite Z.quot_opp_l, Z.quot_div_nonneg by lia.
    destruct (K c ltac:(lia)) as [K1 K2].
    destruct (Z.ltb_spec d 0); nia.
  - rewrite Z.quot_div_nonneg by lia.
    destruct (K a Pa) as [K1 K2].
    destruct (Z.ltb_spec d 0); nia.
Qed.

(** The floor of the rational quotient, from the truncating one. *)
Lemma floor_from_trunc (a d : Z) :
  d <> 0 ->
  a / d
  = Z.quot a d
    - (if negb (a =? Z.quot a d * d) && xorb (a <? 0) (d <? 0)
       then 1 else 0).
Proof.
  intros H.
  pose proof (Z.quot_rem' a d) as QR.
  set (q := Z.quot a d) in *. set (r := Z.rem a d) in *.
  assert (Rb : Z.abs r < Z.abs d) by (apply Z.rem_bound_abs; exact H).
  assert (Rs : 0 <= r * a) by (unfold r; apply Z.rem_sign_mul; exact H).
  symmetry.
  destruct (Z.eqb_spec a (q * d)) as [E|E]; cbn [negb andb].
  - rewrite Z.sub_0_r. apply (Z.div_unique_exact a d q); lia.
  - assert (r <> 0) by lia.
    destruct (Z.ltb_spec a 0) as [Na|Pa];
      destruct (Z.ltb_spec d 0) as [Nd|Pd]; cbn [xorb];
      [assert (r <= 0) by (apply Z.rem_nonpos; lia)
      |assert (r <= 0) by (apply Z.rem_nonpos; lia)
      |assert (0 <= r) by (apply Z.rem_nonneg; lia)
      |assert (0 <= r) by (apply Z.rem_nonneg; lia)].
    + rewrite Z.sub_0_r.
      apply (Z.div_unique a d q r); [right; lia|lia].
    + apply (Z.div_unique a d (q - 1) (r + d)); [left; lia|lia].
    + apply (Z.div_unique a d (q - 1) (r + d)); [right; lia|lia].
    + rewrite Z.sub_0_r.
      apply (Z.div_unique a d q r); [left; lia|lia].
Qed.

(* ------------------------------------------------------------------ *)
(** ** Where the signed kernel agrees with the reference               *)
(* ------------------------------------------------------------------ *)







(* ------------------------------------------------------------------ *)
(** ** Inputs on which the kernel leaves the reference quotient        *)
(* ------------------------------------------------------------------ *)

Ltac each_build b :=
  destruct b as [[] [] [[]|]].

(** C1 at the input (uint8_t, dividend 1, divisor 232), which the unit
    test reaches as divisor [T(1000)] with dividend [T(1)]: the multiplier
    is derived as 31383 and every lane of the result is 1, whereas
    1 / 232 = 0.  For [l = 8] the difference [two_l - divisor] is negative;
    its cast to [uint32_t] and the shift by 8 leave a numerator that is
    not [(256 - divisor) * 256]. *)
Theorem IntDiv_u8_diverges (b : Build) (n : nat) :
  ComputeDivisorParamsU b W8 232
    = Some (ParamsU.mk 31383 1 7 false unset 232) /\
  IntDivWithU b (utag W8 n) (Set_ (utag W8 n) 1) 232
    = Some (Set_ (utag W8 n) 1) /\
  trunc_div 1 232 = 0.
Proof.
  split; [reflexivity|split; [|reflexivity]].
  unfold IntDivWithU, utag. cbn [TFromD width_of].
  change (ComputeDivisorParamsU b W8 232)
    with (Some (ParamsU.mk 31383 1 7 false unset 232)).
  cbn [obind]. f_equal.
  rewrite (IntDivU_lanes b (UInt W8) _ n) by apply length_Set.
  unfold Set_. cbn [TFromD Lanes]. rewrite map_repeat. f_equal.
  each_build b; vm_compute; reflexivity.
Qed.

(** C2 at the input (int8_t, dividend -7, divisor 3), for which the unit
    test asserts the quotient -2: the multiplier is 171, kept as a
    positive [int16_t], and every lane of the result is -5, whereas
    trunc(-7 / 3) = -2. *)
Theorem IntDiv_i8_diverges (b : Build) (n : nat) :
  ComputeDivisorParamsS b W8 3 = Some (ParamsS.mk 171 1 3 false unset) /\
  IntDivWithS b (stag W8 n) (Set_ (stag W8 n) (-7)) 3
    = Some (Set_ (stag W8 n) (-5)) /\
  trunc_div (-7) 3 = -2.
Proof.
  split; [reflexivity|split; [|reflexivity]].
  unfold IntDivWithS, stag. cbn [TFromD width_of].
  change (ComputeDivisorParamsS b W8 3)
    with (Some (ParamsS.mk 171 1 3 false unset)).
  cbn [obind]. f_equal.
  rewrite (IntDivS_lanes b (SInt W8) _ n) by apply length_Set.
  unfold Set_. cbn [TFromD Lanes]. rewrite map_repeat. f_equal.
  each_build b; vm_compute; reflexivity.
Qed.

(** C3 at the input (int8_t, dividend -7, divisor 3), for which the unit
    test asserts the floor -3: [IntDivFloor] returns -6 in every lane,
    whereas the floor of -7 / 3 is -3.  The truncating quotient it starts
    from is -5; the correction subtracts 1 from it. *)
Theorem IntDivFloor_i8_diverges (b : Build) (n : nat) :
  IntDivFloorWithS b (stag W8 n) (Set_ (stag W8 n) (-7)) 3
    = Some (Set_ (stag W8 n) (-6)) /\
  floor_div (-7) 3 = -3.
Proof.
  split; [|reflexivity].
  unfold IntDivFloorWithS, stag. cbn [TFromD width_of].
  change (ComputeDivisorParamsS b W8 3)
    with (Some (ParamsS.mk 171 1 3 false unset)).
  cbn [obind]. f_equal.
  rewrite (IntDivFloorS_lanes b (SInt W8) _ n) by apply length_Set.
  unfold Set_. cbn [TFromD Lanes]. rewrite map_repeat. f_equal.
  each_build b; vm_compute; reflexivity.
Qed.

(** C8 at the input (high 1, divisor 2^32 + 1) in a build that compiles the
    portable branch: the result is 0, whereas
    [(1 * 2^64) / (2^32 + 1) = 2^32 - 1].  The second quotient digit is
    taken from the quotient by [dh] alone and truncated to 32 bits. *)
Theorem DivideHighBy_portable_diverges (t : Target) (s : option bool) :
  DivideHighBy (mkBuild t WidePortable s) 1 4294967297 = Some 0 /\
  DivideHighBy (mkBuild t WideInt128 s) 1 4294967297 = Some 4294967295 /\
  (1 * 2 ^ 64 / 4294967297) mod 2 ^ 64 = 4294967295.
Proof. repeat split; vm_compute; reflexivity. Qed.

(* ------------------------------------------------------------------ *)
(** ** The extent of the divergence at width 8                         *)
(* ------------------------------------------------------------------ *)

(** Below 64 bits the value of a lane does not depend on the build: the
    branches of [ShiftRightUniform] agree and the scalar fallback is not
    compiled in. *)
Lemma IntDivU_lane_any_build (b b' : Build) (w : Width)
  (p : DivisorParamsU) (a : Z) :
  w <> W64 ->
  IntDivU_lane b (UInt w) p a = IntDivU_lane b' (UInt w) p a.
Proof.
  intros Hw. unfold IntDivU_lane, IntDivU. cbn [TFromD].
  assert (E8 : (sizeof (UInt w) =? 8) = false)
    by (destruct w; try reflexivity; congruence).
  rewrite E8, !andb_false_r.
  destruct (ParamsU.is_pow2 p).
  { now rewrite !ShiftRightUniform_clamp by reflexivity. }
  destruct ((ParamsU.shift1 p =? 0) && (ParamsU.shift2 p =? 0)
            && (ParamsU.multiplier p =? 1)); [reflexivity|].
  destruct (sizeof (UInt w) =? 1); [|destruct (sizeof (UInt w) =? 2)];
    one_lane; reflexivity.
Qed.

Lemma IntDivS_lane_any_build (b b' : Build) (w : Width)
  (p : DivisorParamsS) (a : Z) :
  w <> W64 ->
  IntDivS_lane b (SInt w) p a = IntDivS_lane b' (SInt w) p a.
Proof.
  intros Hw. unfold IntDivS_lane, IntDivS. cbn [TFromD].
  assert (E8 : (sizeof (SInt w) =? 8) = false)
    by (destruct w; try reflexivity; congruence).
  rewrite E8, !andb_false_r.
  destruct (ParamsS.divisor p <? 0);
    (destruct (ParamsS.is_pow2 p);
     [one_lane; reflexivity|]);
    (destruct ((ParamsS.shift p =? 0) && (ParamsS.multiplier p =? 1));
     [reflexivity|]);
    (destruct (sizeof (SInt w) =? 1); [|destruct (sizeof (SInt w) =? 2)]);
    one_lane; reflexivity.
Qed.


Lemma u8_extent_checked :
  forallb (fun d => (d =? 0)
                    || Bool.eqb (u8_divisor_ok d)
                                ((d <=? 128) || (d =? 255)))
          (map Z.of_nat (seq 0 256)) = true.
Proof. vm_compute. reflexivity. Qed.

Lemma i8_extent_checked :
  forallb (fun z => (z - 128 =? 0)
                    || Bool.eqb (i8_divisor_ok (z - 128))
                                (IsPow2 (Z.abs (z - 128))))
          (map Z.of_nat (seq 0 256)) = true.
Proof. vm_compute. reflexivity. Qed.

(** X16.  Width 8, unsigned: the block of a non-zero divisor [d] gives
    the quotient of every dividend exactly when [d <= 128] or [d = 255];
    for every other divisor some dividend gets a wrong quotient.  On every
    build. *)
Theorem u8_divergence_extent (b : Build) (d : Z) (p : DivisorParamsU) :
  0 < d < 256 -> ComputeDivisorParamsU b W8 d = Some p ->
  (forall a, 0 <= a < 256 -> IntDivU_lane b uint8_t p a = a / d)
  <-> d <= 128 \/ d = 255.
Proof.
  intros Hd Hp. cbn [ComputeDivisorParamsU] in Hp.
  pose proof (range_check _ 256 u8_extent_checked d ltac:(lia)) as K.
  cbv beta in K. destruct (Z.eqb_spec d 0); [lia|]. cbn [orb] in K.
  apply Bool.eqb_prop in K. unfold u8_divisor_ok in K. rewrite Hp in K.
  assert (C : (d <=? 128) || (d =? 255) = true <-> d <= 128 \/ d = 255)
    by (rewrite orb_true_iff, Z.leb_le, Z.eqb_eq; tauto).
  rewrite <- C, <- K. split.
  - intros H. apply forallb_forall. intros a Ia.
    apply in_map_iff in Ia. destruct Ia as (k & <- & Ik).
    apply in_seq in Ik. apply Z.eqb_eq.
    rewrite (IntDivU_lane_any_build check_build b W8) by discriminate.
    apply H. lia.
  - intros H a Ha.
    pose proof (range_check _ 256 H a ltac:(lia)) as Q. cbv beta in Q.
    apply Z.eqb_eq in Q.
    now rewrite (IntDivU_lane_any_build b check_build W8) by discriminate.
Qed.

Lemma u8_divergence_extent_witness :
  (forall a, 0 <= a < 256 ->
             IntDivU_lane check_build uint8_t
               (ParamsU.mk 31383 1 7 false unset 232) a = a / 232)
  <-> 232 <= 128 \/ 232 = 255.
Proof.
  apply (u8_divergence_extent check_build 232); [lia|reflexivity].
Defined.

(** X17.  Width 8, signed: the block of a non-zero divisor [d] gives the
    truncating quotient of every dividend (the pair (-128, -1) apart)
    exactly when the magnitude of [d] is a power of two; for every other
    divisor some dividend gets a wrong quotient.  On every build. *)
Theorem i8_divergence_extent (b : Build) (d : Z) (p : DivisorParamsS) :
  - 128 <= d < 128 -> d <> 0 -> ComputeDivisorParamsS b W8 d = Some p ->
  (forall a, - 128 <= a < 128 -> ~ (a = -128 /\ d = -1) ->
             IntDivS_lane b int8_t p a = Z.quot a d)
  <-> IsPow2 (Z.abs d) = true.
Proof.
  intros Hd Hz Hp. cbn [ComputeDivisorParamsS] in Hp.
  pose proof (range_check _ 256 i8_extent_checked (d + 128) ltac:(lia)) as K.
  cbv beta in K. replace (d + 128 - 128) with d in K by lia.
  destruct (Z.eqb_spec d 0); [lia|]. cbn [orb] in K.
  apply Bool.eqb_prop in K. unfold i8_divisor_ok in K. rewrite Hp in K.
  rewrite <- K. split.
  - intros H. apply forallb_forall. intros z Iz.
    apply in_map_iff in Iz. destruct Iz as (k & <- & Ik).
    apply in_seq in Ik.
    destruct ((Z.of_nat k - 128 =? -128) && (d =? -1)) eqn:X;
      [reflexivity|]. cbn [orb]. apply Z.eqb_eq.
    rewrite (IntDivS_lane_any_build check_build b W8) by discriminate.
    apply H; [lia|]. intros [E1 E2].
    rewrite E1, E2 in X. discriminate X.
  - intros H a Ha Hx.
    pose proof (range_check _ 256 H (a + 128) ltac:(lia)) as Q.
    cbv beta in Q. replace (a + 128 - 128) with a in Q by lia.
    apply orb_true_iff in Q. destruct Q as [Q|Q].
    + exfalso. apply Hx. apply andb_true_iff in Q.
      rewrite !Z.eqb_eq in Q. exact Q.
    + apply Z.eqb_eq in Q.
      now rewrite (IntDivS_lane_any_build b check_build W8) by discriminate.
Qed.

Lemma i8_divergence_extent_witness :
  (forall a, - 128 <= a < 128 -> ~ (a = -128 /\ 3 = -1) ->
             IntDivS_lane check_build int8_t
               (ParamsS.mk 171 1 3 false unset) a = Z.quot a 3)
  <-> IsPow2 (Z.abs 3) = true.
Proof.
  apply (i8_divergence_extent check_build 3); [lia|lia|reflexivity].
Defined.

(** In a build that compiles the portable [DivideHighBy] and keeps the
    multiplier path, a 64-bit quotient is off as well. *)
Lemma IntDiv_64_portable_diverges (t : Target) (n : nat) :
  In t [HWY_AVX3; HWY_AVX2; HWY_OTHER] ->
  IntDivWithU (mkBuild t WidePortable None) (utag W64 n)
    (Set_ (utag W64 n) 16783183160050913321) 16783183160050913322
  = Some (Set_ (utag W64 n) 1) /\
  trunc_div 16783183160050913321 16783183160050913322 = 0 /\
  IntDivWithS (mkBuild t WidePortable None) (stag W64 n)
    (Set_ (stag W64 n) 8861874138888428724) 8861874138888428725
  = Some (Set_ (stag W64 n) 1) /\
  trunc_div 8861874138888428724 8861874138888428725 = 0.
Proof.
  intros Ht.
  assert (U : forall b p a r,
             ComputeDivisorParamsU b W64 16783183160050913322 = Some p ->
             IntDivU_lane b (UInt W64) p (static_cast (UInt W64) a) = r ->
             IntDivWithU b (utag W64 n) (Set_ (utag W64 n) a)
               16783183160050913322
             = Some (repeat r n)).
  { intros b p a r Hp Hl. unfold IntDivWithU, utag. cbn [TFromD width_of].
    rewrite Hp. cbn [obind]. f_equal.
    rewrite (IntDivU_lanes b (UInt W64) _ n) by apply length_Set.
    unfold Set_. cbn [TFromD Lanes]. rewrite map_repeat. f_equal.
    exact Hl. }
  assert (S : forall b p a r,
             ComputeDivisorParamsS b W64 8861874138888428725 = Some p ->
             IntDivS_lane b (SInt W64) p (static_cast (SInt W64) a) = r ->
             IntDivWithS b (stag W64 n) (Set_ (stag W64 n) a)
               8861874138888428725
             = Some (repeat r n)).
  { intros b p a r Hp Hl. unfold IntDivWithS, stag. cbn [TFromD width_of].
    rewrite Hp. cbn [obind]. f_equal.
    rewrite (IntDivS_lanes b (SInt W64) _ n) by apply length_Set.
    unfold Set_. cbn [TFromD Lanes]. rewrite map_repeat. f_equal.
    exact Hl. }
  split; [|split; [reflexivity|split; [|reflexivity]]].
  - cbn [In] in Ht.
    destruct Ht as [<-|[<-|[<-|[]]]];
      (eapply U; [vm_compute; reflexivity|vm_compute; reflexivity]).
  - cbn [In] in Ht.
    destruct Ht as [<-|[<-|[<-|[]]]];
      (eapply S; [vm_compute; reflexivity|vm_compute; reflexivity]).
Qed.

(* ================================================================== *)
(** * Further properties of the kernel and of its callers              *)
(* ================================================================== *)

(* ------------------------------------------------------------------ *)
(** ** The bit helpers of namespace detail                             *)
(* ------------------------------------------------------------------ *)

(** X1.  [IsPow2] returns true exactly on the powers of two
    [1, 2, 4, ...]; zero and the negative numbers are rejected. *)
Theorem IsPow2_exactly_powers (x : Z) :
  IsPow2 x = true <-> exists k, 0 <= k /\ x = 2 ^ k.
Proof.
  split; [apply IsPow2_spec|]. intros (k & Hk & ->). now apply IsPow2_pow2.
Qed.

(** The loop of [CountTrailingZeros32] adds to [count] the exponent of
    the largest power of two that divides [x]. *)
Lemma ctz_loop_exact (fuel : nat) :
  forall x c : Z,
    0 < x < 2 ^ Z.of_nat fuel ->
    exists k m,
      0 <= k < Z.of_nat fuel /\ ctz_loop fuel x c = c + k /\
      Z.odd m = true /\ x = m * 2 ^ k.
Proof.
  induction fuel as [|fuel IH]; intros x c H.
  - cbn in H. lia.
  - cbn [ctz_loop].
    rewrite Nat2Z.inj_succ, Z.pow_succ_r in H by lia.
    change (Z.land x 1) with (Z.land x (Z.ones 1)).
    rewrite Z.land_ones by lia.
    change (2 ^ 1) with 2.
    pose proof (Z.div_mod x 2 ltac:(lia)) as Dm.
    pose proof (Z.mod_pos_bound x 2 ltac:(lia)) as Bm.
    destruct (Z.eqb_spec (x mod 2) 0) as [E|E].
    + rewrite Z.shiftr_div_pow2 by lia. change (2 ^ 1) with 2.
      destruct (IH (x / 2) (c + 1) ltac:(lia)) as (k & m & Hk & Hc & Hm & Hx).
      exists (k + 1), m. repeat split; try lia; [exact Hm|].
      rewrite Z.pow_add_r by lia. change (2 ^ 1) with 2. lia.
    + exists 0, x. repeat split; try lia.
      rewrite Zodd_mod. apply Z.eqb_eq. lia.
Qed.

Lemma ctz32_exact (x : Z) :
  0 < x < 2 ^ 32 ->
  exists m, 0 <= CountTrailingZeros32 x < 32 /\ Z.odd m = true /\
            x = m * 2 ^ CountTrailingZeros32 x.
Proof.
  intros H. unfold CountTrailingZeros32.
  destruct (Z.eqb_spec x 0); [lia|].
  destruct (ctz_loop_exact 32 x 0 H) as (k & m & Hk & Hc & Hm & Hx).
  rewrite Hc. exists m. cbn [Z.add]. change (Z.of_nat 32) with 32 in Hk.
  repeat split; try lia; assumption.
Qed.

Lemma ctz64_exact (x : Z) :
  0 < x < 2 ^ 64 ->
  exists m, 0 <= CountTrailingZeros64 x < 64 /\ Z.odd m = true /\
            x = m * 2 ^ CountTrailingZeros64 x.
Proof.
  intros H. unfold CountTrailingZeros64.
  destruct (Z.eqb_spec x 0); [lia|].
  rewrite u32_mod', u32_of_shiftr32 by lia.
  pose proof (Z.div_mod x (2 ^ 32) ltac:(lia)) as Dm.
  pose proof (Z.mod_pos_bound x (2 ^ 32) ltac:(lia)) as Bm.
  destruct (Z.eqb_spec (x mod 2 ^ 32) 0) as [E|E]; cbn [negb].
  - assert (Hh : 0 < x / 2 ^ 32 < 2 ^ 32).
    { split; [lia|]. apply Z.div_lt_upper_bound; lia. }
    destruct (ctz32_exact _ Hh) as (m & Hc & Hm & Hx).
    exists m. split; [lia|]. split; [exact Hm|].
    rewrite Z.pow_add_r by lia. lia.
  - destruct (ctz32_exact (x mod 2 ^ 32) ltac:(lia))
      as (m & Hc & Hm & Hx).
    set (c := CountTrailingZeros32 (x mod 2 ^ 32)) in *.
    exists (x / 2 ^ 32 * 2 ^ (32 - c) + m). split; [lia|]. split.
    + rewrite Z.odd_add, Hm.
      replace (32 - c) with (Z.succ (31 - c)) by lia.
      rewrite Z.pow_succ_r by lia.
      replace (x / 2 ^ 32 * (2 * 2 ^ (31 - c)))
        with (2 * (x / 2 ^ 32 * 2 ^ (31 - c))) by ring.
      now rewrite Z.odd_mul, Z.odd_2.
    + rewrite Z.mul_add_distr_r, <- Z.mul_assoc, <- Z.pow_add_r by lia.
      replace (32 - c + c) with 32 by lia. lia.
Qed.

(** X2.  On a non-zero value of their width, the portable
    [CountTrailingZeros32] and [CountTrailingZeros64] return the exponent
    of the largest power of two that divides the value: the value is an
    odd number times two to the count.  On zero they return the width. *)
Theorem CountTrailingZeros_exact (x : Z) :
  (0 < x < 2 ^ 32 ->
   exists m, 0 <= CountTrailingZeros32 x < 32 /\ Z.odd m = true /\
             x = m * 2 ^ CountTrailingZeros32 x) /\
  (0 < x < 2 ^ 64 ->
   exists m, 0 <= CountTrailingZeros64 x < 64 /\ Z.odd m = true /\
             x = m * 2 ^ CountTrailingZeros64 x) /\
  CountTrailingZeros32 0 = 32 /\ CountTrailingZeros64 0 = 64.
Proof.
  split; [apply ctz32_exact|]. split; [apply ctz64_exact|].
  split; reflexivity.
Qed.

Lemma CountTrailingZeros_exact_witness :
  (exists m, 0 <= CountTrailingZeros32 40 < 32 /\ Z.odd m = true /\
             40 = m * 2 ^ CountTrailingZeros32 40) /\
  (exists m, 0 <= CountTrailingZeros64 40 < 64 /\ Z.odd m = true /\
             40 = m * 2 ^ CountTrailingZeros64 40).
Proof.
  split.
  - apply (proj1 (CountTrailingZeros_exact 40)). lia.
  - apply (proj1 (proj2 (CountTrailingZeros_exact 40))). lia.
Defined.

(** X3.  On a non-zero value of their width, the portable
    [LeadingZeroCount32] and [LeadingZeroCount64] return the number of
    zero bits above the highest set bit, [W - 1 - floor(log2 x)].  On zero
    they return the width. *)
Theorem LeadingZeroCount_log2 (x : Z) :
  (0 < x < 2 ^ 32 -> LeadingZeroCount32 x = 31 - Z.log2 x) /\
  (0 < x < 2 ^ 64 -> LeadingZeroCount64 x = 63 - Z.log2 x) /\
  LeadingZeroCount32 0 = 32 /\ LeadingZeroCount64 0 = 64.
Proof.
  split; [|split; [|split; reflexivity]]; intros H.
  - destruct (LeadingZeroCount32_spec x H) as [R N].
    pose proof (normalised_bounds x (LeadingZeroCount32 x) 32
                  ltac:(lia) N) as B.
    enough (Z.log2 x = 31 - LeadingZeroCount32 x) by lia.
    apply Z.log2_unique; [lia|].
    replace (32 - 1 - LeadingZeroCount32 x)
      with (31 - LeadingZeroCount32 x) in B by lia.
    replace (Z.succ (31 - LeadingZeroCount32 x))
      with (32 - LeadingZeroCount32 x) by lia.
    exact B.
  - destruct (LeadingZeroCount64_spec x H) as [R N].
    pose proof (normalised_bounds x (LeadingZeroCount64 x) 64
                  ltac:(lia) N) as B.
    enough (Z.log2 x = 63 - LeadingZeroCount64 x) by lia.
    apply Z.log2_unique; [lia|].
    replace (64 - 1 - LeadingZeroCount64 x)
      with (63 - LeadingZeroCount64 x) in B by lia.
    replace (Z.succ (63 - LeadingZeroCount64 x))
      with (64 - LeadingZeroCount64 x) by lia.
    exact B.
Qed.

Lemma LeadingZeroCount_log2_witness :
  LeadingZeroCount32 1000 = 31 - Z.log2 1000 /\
  LeadingZeroCount64 1000 = 63 - Z.log2 1000.
Proof.
  split.
  - apply (proj1 (LeadingZeroCount_log2 1000)). lia.
  - apply (proj1 (proj2 (LeadingZeroCount_log2 1000))). lia.
Defined.

(* ------------------------------------------------------------------ *)
(** ** DivideHighBy on every build                                     *)
(* ------------------------------------------------------------------ *)

(** Digits that do not overlap are joined by [|]. *)
Lemma lor_disjoint (a b : Z) :
  0 <= b < 2 ^ 32 -> Z.lor (a * 2 ^ 32) b = a * 2 ^ 32 + b.
Proof.
  intros Hb.
  assert (L : Z.land (a * 2 ^ 32) b = 0).
  { apply Z.bits_inj'. intros i Hi. rewrite Z.land_spec, Z.bits_0.
    destruct (Z.lt_ge_cases i 32) as [Lt|Ge].
    - rewrite Z.mul_pow2_bits_low by lia. reflexivity.
    - rewrite <- (Z.mod_small b (2 ^ 32)) by lia.
      rewrite Z.mod_pow2_bits_high by lia. apply andb_false_r. }
  rewrite <- Z.lxor_lor by exact L.
  symmetry. apply Z.add_nocarry_lxor. exact L.
Qed.

(** With a zero low digit of the divisor the correction loop is not
    entered. *)
Lemma knuth_adjust_stays (fuel : nat) (dh qh rem : Z) :
  0 <= qh < 2 ^ 32 ->
  knuth_adjust fuel dh 0 qh rem = Some (qh, rem).
Proof.
  intros Hq.
  assert (E : (base32 <=? qh)
              || (static_cast uint64_t (Z.shiftl rem 32)
                  <? static_cast uint64_t (qh * 0)) = false).
  { apply orb_false_iff. split.
    - apply Z.leb_gt. change base32 with (2 ^ 32). lia.
    - apply Z.ltb_ge. rewrite Z.mul_0_r. rewrite !u64_mod.
      change (0 mod 2 ^ 64) with 0.
      apply Z.mod_pos_bound. lia. }
  destruct fuel; cbn [knuth_adjust]; rewrite E; reflexivity.
Qed.

(** The reduction [high %= divisor] does not change the low 64 bits of
    the quotient. *)
Lemma wide_quotient_reduce (high d : Z) :
  0 <= high -> 0 < d ->
  (high * 2 ^ 64 / d) mod 2 ^ 64 = high mod d * 2 ^ 64 / d.
Proof.
  intros Hh Hd.
  pose proof (Z.div_mod high d ltac:(lia)) as Dm.
  pose proof (Z.mod_pos_bound high d Hd) as Mb.
  set (h := high mod d) in *. set (k := high / d) in *.
  replace (high * 2 ^ 64) with (k * 2 ^ 64 * d + h * 2 ^ 64)
    by (rewrite Dm at 1; ring).
  rewrite Z.div_add_l by lia.
  rewrite Z.add_comm, Z.mod_add by lia.
  apply Z.mod_small. split; [apply Z.div_pos; lia|].
  apply Z.div_lt_upper_bound; [lia|]. nia.
Qed.

(** Schoolbook division in base [2^32]: two digits of the quotient. *)
Lemma two_digits (h d : Z) :
  0 <= h -> 0 < d ->
  h * 2 ^ 32 / d * 2 ^ 32 + (h * 2 ^ 32) mod d * 2 ^ 32 / d
  = h * 2 ^ 64 / d.
Proof.
  intros Hh Hd.
  pose proof (Z.div_mod (h * 2 ^ 32) d ltac:(lia)) as Dm.
  set (q := h * 2 ^ 32 / d) in *. set (r := (h * 2 ^ 32) mod d) in *.
  replace (h * 2 ^ 64) with (q * 2 ^ 32 * d + r * 2 ^ 32)
    by (change (2 ^ 64) with (2 ^ 32 * 2 ^ 32); ring_simplify;
        rewrite (Z.mul_comm d q) in Dm; nia).
  rewrite Z.div_add_l by lia. reflexivity.
Qed.

(** A divisor below [2^32] normalises to a single non-zero digit; both
    quotient digits of the portable branch are then exact. *)
Lemma DivideHighBy_portable_small (high d : Z) :
  0 <= high < 2 ^ 64 -> 0 < d < 2 ^ 32 ->
  DivideHighBy_portable high d = Some ((high * 2 ^ 64 / d) mod 2 ^ 64).
Proof.
  intros Hh Hd.
  rewrite wide_quotient_reduce by lia.
  unfold DivideHighBy_portable.
  pose proof (Z.mod_pos_bound high d ltac:(lia)) as Mb.
  set (h := high mod d) in *.
  destruct (Z.eqb_spec h 0) as [E|E]; [rewrite E; reflexivity|].
  destruct (LeadingZeroCount64_spec d ltac:(lia)) as [R1 R2].
  set (ldz := LeadingZeroCount64 d) in *.
  assert (L32 : 32 <= ldz).
  { destruct (Z.lt_ge_cases ldz 32) as [Lt|]; [|assumption].
    assert (2 ^ ldz <= 2 ^ 31) by (apply Z.pow_le_mono_r; lia).
    change (2 ^ 63) with (2 ^ 32 * 2 ^ 31) in R2. nia. }
  set (s := 2 ^ (ldz - 32)).
  assert (Ps : 0 < s) by (apply Z.pow_pos_nonneg; lia).
  assert (Es : 2 ^ ldz = s * 2 ^ 32).
  { unfold s. rewrite <- Z.pow_add_r by lia. f_equal. lia. }
  assert (Dn : static_cast uint64_t (Z.shiftl d ldz) = d * s * 2 ^ 32).
  { rewrite Z.shiftl_mul_pow2 by lia. rewrite u64_id by lia. lia. }
  assert (Nn : static_cast uint64_t (Z.shiftl h ldz) = h * s * 2 ^ 32).
  { rewrite Z.shiftl_mul_pow2 by lia. rewrite u64_id by nia. lia. }
  rewrite Dn, Nn.
  assert (Bd : 2 ^ 31 <= d * s < 2 ^ 32).
  { change (2 ^ 63) with (2 ^ 31 * 2 ^ 32) in R2.
    change (2 ^ 64) with (2 ^ 32 * 2 ^ 32) in R2. nia. }
  assert (Dh : static_cast uint32_t (Z.shiftr (d * s * 2 ^ 32) 32) = d * s).
  { rewrite Z.shiftr_div_pow2, Z.div_mul by lia. apply u32_id. lia. }
  assert (Dl : static_cast uint32_t (Z.land (d * s * 2 ^ 32) 4294967295) = 0).
  { change 4294967295 with (Z.ones 32). rewrite Z.land_ones by lia.
    now rewrite Z.mod_mul by lia. }
  rewrite Dh, Dl.
  assert (Q : h * s * 2 ^ 32 / (d * s) = h * 2 ^ 32 / d).
  { replace (h * s * 2 ^ 32) with (h * 2 ^ 32 * s) by ring.
    apply Z.div_mul_cancel_r; lia. }
  rewrite Q.
  set (qh := h * 2 ^ 32 / d) in *.
  assert (Bq : 0 <= qh < 2 ^ 32).
  { split; [apply Z.div_pos; lia|]. apply Z.div_lt_upper_bound; nia. }
  pose proof (Z.div_mod (h * 2 ^ 32) d ltac:(lia)) as Dm.
  pose proof (Z.mod_pos_bound (h * 2 ^ 32) d ltac:(lia)) as Bm.
  fold qh in Dm. set (r := (h * 2 ^ 32) mod d) in *.
  assert (Er : h * s * 2 ^ 32 - qh * (d * s) = r * s) by nia.
  rewrite Er, knuth_adjust_stays by exact Bq.
  assert (Dp : static_cast uint64_t
                 (static_cast uint64_t (Z.shiftl (h * s * 2 ^ 32) 32)
                  - static_cast uint64_t (d * s * 2 ^ 32 * qh))
               = r * s * 2 ^ 32).
  { rewrite Z.shiftl_mul_pow2 by lia. rewrite !u64_mod.
    rewrite <- Zminus_mod.
    replace (h * s * 2 ^ 32 * 2 ^ 32 - d * s * 2 ^ 32 * qh)
      with (r * s * 2 ^ 32) by nia.
    apply Z.mod_small. change (2 ^ 64) with (2 ^ 32 * 2 ^ 32). nia. }
  rewrite Dp.
  assert (Ql : r * s * 2 ^ 32 / (d * s) = r * 2 ^ 32 / d).
  { replace (r * s * 2 ^ 32) with (r * 2 ^ 32 * s) by ring.
    apply Z.div_mul_cancel_r; lia. }
  rewrite Ql.
  assert (Bl : 0 <= r * 2 ^ 32 / d < 2 ^ 32).
  { split; [apply Z.div_pos; lia|]. apply Z.div_lt_upper_bound; nia. }
  rewrite (u32_id (r * 2 ^ 32 / d)) by exact Bl.
  rewrite Z.shiftl_mul_pow2 by lia.
  rewrite (u64_id (qh * 2 ^ 32))
    by (change (2 ^ 64) with (2 ^ 32 * 2 ^ 32); nia).
  rewrite lor_disjoint by exact Bl.
  f_equal. unfold qh, r. apply two_digits; lia.
Qed.

Lemma DivideHighBy_small (b : Build) (high d : Z) :
  0 <= high < 2 ^ 64 -> 0 < d < 2 ^ 32 ->
  DivideHighBy b high d = Some ((high * 2 ^ 64 / d) mod 2 ^ 64).
Proof.
  intros Hh Hd. destruct b as [t [] s].
  - apply DivideHighBy_int128_spec. lia.
  - unfold DivideHighBy. cbn [wide_div].
    destruct (Z.eqb_spec d 0); [lia|].
    now apply DivideHighBy_portable_small.
Qed.

(** X4.  For a divisor below [2^32], [DivideHighBy] returns the low 64
    bits of [floor(high * 2^64 / divisor)] in the portable branch as well
    as in the [__int128] branch; when [high < divisor] that is the whole
    quotient. *)
Theorem DivideHighBy_small_divisor (b : Build) (high divisor : Z) :
  0 <= high < 2 ^ 64 -> 0 < divisor < 2 ^ 32 ->
  DivideHighBy b high divisor
  = Some ((high * 2 ^ 64 / divisor) mod 2 ^ 64) /\
  (high < divisor ->
   DivideHighBy b high divisor = Some (high * 2 ^ 64 / divisor)).
Proof.
  intros Hh Hd. rewrite (DivideHighBy_small b high divisor Hh Hd).
  split; [reflexivity|]. intros Hlt. f_equal.
  apply Z.mod_small. split; [apply Z.div_pos; lia|].
  apply Z.div_lt_upper_bound; [lia|]. nia.
Qed.

Lemma DivideHighBy_small_divisor_witness :
  DivideHighBy (mkBuild HWY_OTHER WidePortable None) 12345 4294967291
  = Some ((12345 * 2 ^ 64 / 4294967291) mod 2 ^ 64) /\
  (12345 < 4294967291 ->
   DivideHighBy (mkBuild HWY_OTHER WidePortable None) 12345 4294967291
   = Some (12345 * 2 ^ 64 / 4294967291)).
Proof.
  apply (DivideHighBy_small_divisor
           (mkBuild HWY_OTHER WidePortable None) 12345 4294967291); lia.
Defined.

(** X5.  [DivideHighBy] has no result exactly when the divisor is zero.
    For every other 64-bit divisor both branches return: the correction
    loop of the portable branch leaves within two iterations. *)
Theorem DivideHighBy_fails_iff_zero (b : Build) (high divisor : Z) :
  0 <= high < 2 ^ 64 -> 0 <= divisor < 2 ^ 64 ->
  (DivideHighBy b high divisor = None <-> divisor = 0).
Proof.
  intros Hh Hd. split.
  - intros H. destruct (Z.eq_dec divisor 0) as [|Hz]; [assumption|].
    exfalso. apply (DivideHighBy_total b high divisor Hh); [lia|exact H].
  - intros ->. reflexivity.
Qed.

Lemma DivideHighBy_fails_iff_zero_witness :
  DivideHighBy (mkBuild HWY_OTHER WidePortable None) 1 4294967297 = None
  <-> 4294967297 = 0.
Proof.
  apply (DivideHighBy_fails_iff_zero
           (mkBuild HWY_OTHER WidePortable None) 1 4294967297); lia.
Defined.

(* ------------------------------------------------------------------ *)
(** ** The vector helpers of namespace detail                          *)
(* ------------------------------------------------------------------ *)

(** X6.  [ShiftRightUniform] returns the same vector on every target: the
    native variable shifts of NEON, AVX3 and AVX2 and the decomposition
    into immediate shifts agree for every count, clamped or not. *)
Theorem ShiftRightUniform_any_target (b b' : Build) (d : Tag) (v : Vec)
  (sh : Z) :
  length v = Lanes d ->
  ShiftRightUniform b d v sh = ShiftRightUniform b' d v sh.
Proof.
  intros L. now rewrite !ShiftRightUniform_clamp by exact L.
Qed.

Lemma ShiftRightUniform_any_target_witness :
  ShiftRightUniform (mkBuild HWY_NEON WideInt128 None) (stag W64 3)
    [-9223372036854775808; -5; 77] 70
  = ShiftRightUniform (mkBuild HWY_OTHER WidePortable None) (stag W64 3)
      [-9223372036854775808; -5; 77] 70.
Proof.
  apply (ShiftRightUniform_any_target
           (mkBuild HWY_NEON WideInt128 None)
           (mkBuild HWY_OTHER WidePortable None) (stag W64 3)
           [-9223372036854775808; -5; 77] 70).
  reflexivity.
Defined.

(** The truncating quotient of two values of a lane type is a value of
    the type, the quotient of the minimum by -1 apart. *)
Lemma trunc_in_range (w : Width) (a d : Z) :
  in_range (SInt w) a -> d <> 0 ->
  ~ (a = LimitsMin (SInt w) /\ d = -1) ->
  in_range (SInt w) (Z.quot a d).
Proof.
  intros Ra Hz Hx. apply signed_range. apply signed_range in Ra.
  destruct (half_width w) as [E P].
  destruct (Z.eq_dec d 1) as [->|D1]; [rewrite Z.quot_1_r; lia|].
  destruct (Z.eq_dec d (-1)) as [->|D2].
  - assert (a <> LimitsMin (SInt w)) by (intros ->; apply Hx; lia).
    unfold LimitsMin in *.
    change (-1) with (- (1)). rewrite Z.quot_opp_r, Z.quot_1_r; lia.
  - pose proof (quot_halves a (Z.abs d) ltac:(lia)).
    rewrite (quot_by_sign a d Hz). destruct (d <? 0); lia.
Qed.

Lemma quot_in_range (T : LaneType) (a c : Z) :
  in_range T a -> in_range T c -> c <> 0 ->
  ~ (a = LimitsMin T /\ c = -1) ->
  in_range T (Z.quot a c).
Proof.
  intros Ra Rc Hz Hx. destruct T as [w|w].
  - unfold in_range, LimitsMin, LimitsMax in *.
    rewrite Z.quot_div_nonneg by lia.
    split; [apply Z.div_pos; lia|].
    assert (a / c <= a); [|lia].
    apply Z.div_le_upper_bound; [lia|]. nia.
  - now apply trunc_in_range.
Qed.

(** X7.  [ScalarDivPerLane] returns, lane by lane, the C++ quotient of the
    lane by the scalar: the store, the scalar loop and the load keep
    every lane in its place.  The quotient of the minimum by -1, which
    C++ leaves undefined, is set apart. *)
Theorem ScalarDivPerLane_quotients (d : Tag) (v : Vec) (c : Z) :
  length v = Lanes d -> Forall (in_range (TFromD d)) v ->
  in_range (TFromD d) c -> c <> 0 ->
  Forall (fun a => ~ (a = LimitsMin (TFromD d) /\ c = -1)) v ->
  ScalarDivPerLane d v c = map (fun a => trunc_div a c) v.
Proof.
  intros L Rv Rc Hz Hx. rewrite (ScalarDivPerLane_map d v c L).
  apply map_ext_Forall. rewrite Forall_forall in *. intros a Ia.
  apply static_cast_id, quot_in_range; auto.
Qed.

Lemma ScalarDivPerLane_quotients_witness :
  ScalarDivPerLane (stag W64 4) [-100; -7; 0; 9223372036854775807] (-3)
  = map (fun a => trunc_div a (-3)) [-100; -7; 0; 9223372036854775807].
Proof.
  apply (ScalarDivPerLane_quotients (stag W64 4)
           [-100; -7; 0; 9223372036854775807] (-3)).
  - reflexivity.
  - repeat (first [apply Forall_nil | apply Forall_cons]);
      apply in_rangeb_spec; reflexivity.
  - apply in_rangeb_spec. reflexivity.
  - lia.
  - repeat (first [apply Forall_nil | apply Forall_cons]); lia.
Defined.

(* ------------------------------------------------------------------ *)
(** ** The parameter blocks                                            *)
(* ------------------------------------------------------------------ *)

(** The exponent [l] and the second shift count of the unsigned
    specialisations. *)
Lemma shift_of_u32 (w : Width) (d : Z) :
  w <> W64 -> 3 <= d < 2 ^ width_bits w ->
  let l := static_cast unsigned_t
             (32 - LeadingZeroCount32 (static_cast uint32_t (d - 1))) in
  2 <= l <= width_bits w /\ static_cast int_t (l - 1) = l - 1 /\
  2 ^ (l - 1) < d <= 2 ^ l.
Proof.
  intros Hw Hd l.
  assert (W32b : 2 ^ width_bits w <= 2 ^ 32)
    by (destruct w; cbn [width_bits]; try lia; congruence).
  destruct (ceil_log2_32 d ltac:(lia)) as [Rl Bl].
  unfold l. rewrite (u32_id (d - 1)) by lia.
  change unsigned_t with uint32_t. change int_t with int32_t.
  set (l' := 32 - LeadingZeroCount32 (d - 1)) in *.
  rewrite (u32_id l') by lia. rewrite (i32_id (l' - 1)) by lia.
  split; [|split; [reflexivity|exact Bl]].
  split; [lia|].
  destruct (Z.le_gt_cases l' (width_bits w)) as [|G]; [assumption|].
  assert (2 ^ width_bits w <= 2 ^ (l' - 1))
    by (apply Z.pow_le_mono_r; lia). lia.
Qed.

Lemma shift_of_u64 (d : Z) :
  3 <= d < 2 ^ 64 ->
  let l := static_cast unsigned_t
             (64 - LeadingZeroCount64 (static_cast uint64_t (d - 1))) in
  2 <= l <= 64 /\ static_cast int_t (l - 1) = l - 1 /\
  2 ^ (l - 1) < d <= 2 ^ l.
Proof.
  intros Hd l.
  destruct (ceil_log2_64 d ltac:(lia)) as [Rl Bl].
  unfold l. rewrite (u64_id (d - 1)) by lia.
  change unsigned_t with uint32_t. change int_t with int32_t.
  set (l' := 64 - LeadingZeroCount64 (d - 1)) in *.
  rewrite (u32_id l') by lia. rewrite (i32_id (l' - 1)) by lia.
  split; [lia|split; [reflexivity|exact Bl]].
Qed.

(** X8.  The unsigned [ComputeDivisorParams] aborts exactly on the
    divisor zero; every other divisor of the lane type gets a block, on
    every build. *)
Theorem ComputeDivisorParamsU_abort_iff_zero (b : Build) (w : Width)
  (d : Z) :
  in_range (UInt w) d ->
  (ComputeDivisorParamsU b w d = None <-> d = 0).
Proof.
  intros R. split.
  - intros H. destruct (Z.eq_dec d 0) as [|Hz]; [assumption|exfalso].
    assert (Hd : 0 < d < 2 ^ width_bits w)
      by (unfold in_range, LimitsMin, LimitsMax in R; lia).
    destruct (IsPow2 d) eqn:Hp.
    + rewrite pow2_params_U in H by assumption. discriminate H.
    + destruct w; cbn [ComputeDivisorParamsU] in H;
        [unfold ComputeDivisorParams_u8 in H
        |unfold ComputeDivisorParams_u16 in H
        |unfold ComputeDivisorParams_u32 in H
        |destruct (params_u64_shape b d Hd Hp) as (m & l & E); congruence];
        rewrite Hp, (proj2 (Z.eqb_neq d 0) Hz) in H;
        destruct (d =? 1); cbv zeta in H; discriminate H.
  - intros ->. destruct w; reflexivity.
Qed.

Lemma ComputeDivisorParamsU_abort_iff_zero_witness :
  ComputeDivisorParamsU (mkBuild HWY_OTHER WidePortable None) W64
    18446744073709551615 = None
  <-> 18446744073709551615 = 0.
Proof.
  apply (ComputeDivisorParamsU_abort_iff_zero
           (mkBuild HWY_OTHER WidePortable None) W64 18446744073709551615).
  apply in_rangeb_spec. reflexivity.
Defined.

(** X9.  The signed [ComputeDivisorParams] aborts exactly on the divisor
    zero; every other divisor of the lane type gets a block, on every
    build. *)
Theorem ComputeDivisorParamsS_abort_iff_zero (b : Build) (w : Width)
  (d : Z) :
  in_range (SInt w) d ->
  (ComputeDivisorParamsS b w d = None <-> d = 0).
Proof.
  intros R. split.
  - intros H. destruct (Z.eq_dec d 0) as [|Hz]; [assumption|exfalso].
    destruct (IsPow2 (Z.abs d)) eqn:Hp.
    + destruct (pow2_params_S b w d R Hz Hp) as (k & _ & _ & E). congruence.
    + pose proof (abs_divisor_abs w d R) as Ea.
      destruct w; cbn [ComputeDivisorParamsS] in H;
        [unfold ComputeDivisorParams_i8 in H;
         change (abs_divisor int8_t d) with (abs_divisor (SInt W8) d) in H
        |unfold ComputeDivisorParams_i16 in H;
         change (abs_divisor int16_t d) with (abs_divisor (SInt W16) d) in H
        |unfold ComputeDivisorParams_i32 in H;
         change (abs_divisor int32_t d) with (abs_divisor (SInt W32) d) in H
        |destruct (params_i64_shape b d R Hz Hp) as (m & sh & _ & E);
         congruence];
        rewrite Ea, Hp, (proj2 (Z.eqb_neq d 0) Hz) in H;
        destruct (Z.abs d =? 1); try discriminate H;
        destruct (_ =? _); cbv zeta in H; discriminate H.
  - intros ->. destruct w; reflexivity.
Qed.

Lemma ComputeDivisorParamsS_abort_iff_zero_witness :
  ComputeDivisorParamsS (mkBuild HWY_OTHER WidePortable None) W64
    (-9223372036854775807) = None
  <-> -9223372036854775807 = 0.
Proof.
  apply (ComputeDivisorParamsS_abort_iff_zero
           (mkBuild HWY_OTHER WidePortable None) W64
           (-9223372036854775807)).
  apply in_rangeb_spec. reflexivity.
Defined.

(** X10.  The block of an unsigned divisor [d]: it records [d]; [is_pow2]
    is set exactly when [d] is a power of two, and then multiplier and
    shifts are 1, 0, 0 and [pow2_shift] is the exponent; otherwise
    [shift1] is 1 and [shift2] is [ceil(log2 d) - 1], a count below the
    lane width.  The arm for [divisor == 1] is never reached: 1 is a
    power of two. *)
Theorem ComputeDivisorParamsU_block (b : Build) (w : Width) (d : Z)
  (p : DivisorParamsU) :
  in_range (UInt w) d -> ComputeDivisorParamsU b w d = Some p ->
  ParamsU.divisor p = d /\
  ParamsU.is_pow2 p = IsPow2 d /\
  (IsPow2 d = true ->
   ParamsU.multiplier p = 1 /\ ParamsU.shift1 p = 0 /\
   ParamsU.shift2 p = 0 /\
   0 <= ParamsU.pow2_shift p < width_bits w /\
   d = 2 ^ ParamsU.pow2_shift p) /\
  (IsPow2 d = false ->
   ParamsU.shift1 p = 1 /\ 1 <= ParamsU.shift2 p < width_bits w /\
   2 ^ ParamsU.shift2 p < d <= 2 ^ (ParamsU.shift2 p + 1)).
Proof.
  intros R H.
  assert (Hz : d <> 0).
  { intros ->. destruct w; discriminate H. }
  assert (Hd : 0 < d < 2 ^ width_bits w)
    by (unfold in_range, LimitsMin, LimitsMax in R; lia).
  destruct (IsPow2 d) eqn:Hp.
  - destruct (pow2_in_range w d Hd Hp) as (k & Hk & E & Hpar).
    rewrite (Hpar b) in H. inversion H; subst p.
    cbn [ParamsU.divisor ParamsU.is_pow2 ParamsU.pow2_shift
         ParamsU.multiplier ParamsU.shift1 ParamsU.shift2].
    repeat split; try lia; discriminate.
  - pose proof (not_pow2_ge_3 d ltac:(lia) Hp) as H3.
    assert (K : forall l m,
               2 <= l <= width_bits w -> 2 ^ (l - 1) < d <= 2 ^ l ->
               Some (ParamsU.mk m 1 (l - 1) false unset d) = Some p ->
               ParamsU.divisor p = d /\ ParamsU.is_pow2 p = false /\
               (false = true ->
                ParamsU.multiplier p = 1 /\ ParamsU.shift1 p = 0 /\
                ParamsU.shift2 p = 0 /\
                0 <= ParamsU.pow2_shift p < width_bits w /\
                d = 2 ^ ParamsU.pow2_shift p) /\
               (false = false ->
                ParamsU.shift1 p = 1 /\
                1 <= ParamsU.shift2 p < width_bits w /\
                2 ^ ParamsU.shift2 p < d <= 2 ^ (ParamsU.shift2 p + 1))).
    { intros l m Hl Bl E. inversion E; subst p.
      cbn [ParamsU.divisor ParamsU.is_pow2 ParamsU.shift1 ParamsU.shift2].
      replace (l - 1 + 1) with l by lia.
      repeat split; try lia; discriminate. }
    destruct w; cbn [ComputeDivisorParamsU] in H;
      [unfold ComputeDivisorParams_u8 in H
      |unfold ComputeDivisorParams_u16 in H
      |unfold ComputeDivisorParams_u32 in H
      |unfold ComputeDivisorParams_u64 in H];
      rewrite Hp, (proj2 (Z.eqb_neq d 0) Hz) in H;
      (destruct (Z.eqb_spec d 1); [lia|]); cbv zeta in H.
    1-3: match type of H with
         | Some (ParamsU.mk ?m 1 (static_cast int_t (?l - 1)) _ _ _) = _ =>
             match type of Hd with
             | _ < _ < 2 ^ width_bits ?w0 =>
                 destruct (shift_of_u32 w0 d ltac:(discriminate) ltac:(lia))
                   as (Rl & El & Bl)
             end;
             rewrite El in H; exact (K l m Rl Bl H)
         end.
    match type of H with
    | obind ?o _ = _ => destruct o as [q|]; [|discriminate H]
    end.
    cbn [obind] in H.
    match type of H with
    | Some (ParamsU.mk ?m 1 (static_cast int_t (?l - 1)) _ _ _) = _ =>
        destruct (shift_of_u64 d ltac:(cbn [width_bits] in Hd; lia))
          as (Rl & El & Bl);
        rewrite El in H; exact (K l m Rl Bl H)
    end.
Qed.


Lemma ComputeDivisorParamsU_block_witness :
  exists p,
    ComputeDivisorParamsU check_build W16 1000 = Some p /\
    ParamsU.divisor p = 1000 /\
    ParamsU.is_pow2 p = IsPow2 1000 /\
    (IsPow2 1000 = false ->
     ParamsU.shift1 p = 1 /\ 1 <= ParamsU.shift2 p < width_bits W16 /\
     2 ^ ParamsU.shift2 p < 1000 <= 2 ^ (ParamsU.shift2 p + 1)).
Proof.
  eexists. split; [reflexivity|].
  destruct (ComputeDivisorParamsU_block check_build W16 1000 _
              ltac:(apply in_rangeb_spec; reflexivity) eq_refl)
    as (A & B & _ & C).
  split; [exact A|]. split; [exact B|exact C].
Defined.

(** The shift count of the signed specialisations. *)
Lemma shift_of_s32 (w : Width) (ad : Z) :
  w <> W64 -> 3 <= ad < 2 ^ (width_bits w - 1) ->
  let sh := static_cast unsigned_t
              (31 - LeadingZeroCount32 (static_cast uint32_t (ad - 1))) in
  1 <= sh <= width_bits w - 2 /\ static_cast int_t sh = sh /\
  2 ^ sh < ad <= 2 ^ (sh + 1).
Proof.
  intros Hw Hd sh.
  assert (W32b : 2 ^ (width_bits w - 1) <= 2 ^ 31)
    by (destruct w; cbn [width_bits]; try lia; congruence).
  pose proof (width_bits_pos w).
  destruct (ceil_log2_32 ad ltac:(lia)) as [Rl Bl].
  unfold sh. rewrite (u32_id (ad - 1)) by lia.
  change unsigned_t with uint32_t. change int_t with int32_t.
  set (l := 32 - LeadingZeroCount32 (ad - 1)) in *.
  replace (31 - LeadingZeroCount32 (ad - 1)) with (l - 1) by (unfold l; lia).
  rewrite (u32_id (l - 1)) by lia. rewrite (i32_id (l - 1)) by lia.
  replace (l - 1 + 1) with l by lia.
  split; [|split; [reflexivity|exact Bl]].
  split; [lia|].
  destruct (Z.le_gt_cases (l - 1) (width_bits w - 2)) as [|G]; [assumption|].
  assert (2 ^ (width_bits w - 1) <= 2 ^ (l - 1))
    by (apply Z.pow_le_mono_r; lia). lia.
Qed.

Lemma shift_of_s64 (ad : Z) :
  3 <= ad < 2 ^ 63 ->
  let sh := static_cast unsigned_t
              (63 - LeadingZeroCount64 (static_cast uint64_t (ad - 1))) in
  1 <= sh <= 62 /\ static_cast int_t sh = sh /\
  2 ^ sh < ad <= 2 ^ (sh + 1).
Proof.
  intros Hd sh.
  destruct (ceil_log2_64 ad ltac:(lia)) as [Rl Bl].
  unfold sh. rewrite (u64_id (ad - 1)) by lia.
  change unsigned_t with uint32_t. change int_t with int32_t.
  set (l := 64 - LeadingZeroCount64 (ad - 1)) in *.
  replace (63 - LeadingZeroCount64 (ad - 1)) with (l - 1) by (unfold l; lia).
  rewrite (u32_id (l - 1)) by lia. rewrite (i32_id (l - 1)) by lia.
  replace (l - 1 + 1) with l by lia.
  split; [|split; [reflexivity|exact Bl]].
  split; [lia|].
  destruct (Z.le_gt_cases (l - 1) 62) as [|G]; [assumption|].
  assert (2 ^ 63 <= 2 ^ (l - 1)) by (apply Z.pow_le_mono_r; lia). lia.
Qed.

(** A divisor whose magnitude is not a power of two is not the minimum:
    the test [static_cast<UT>(divisor) == 0x80...] fails. *)
Lemma not_min_cast (w : Width) (d : Z) :
  in_range (SInt w) d -> IsPow2 (Z.abs d) = false ->
  (static_cast (UInt w) d =? 2 ^ (width_bits w - 1)) = false.
Proof.
  intros R Hp. apply Z.eqb_neq. intros E.
  apply signed_range in R. destruct (half_width w) as [Eh P].
  assert (Em : d = - 2 ^ (width_bits w - 1)).
  { unfold static_cast in E. clear Eh P Hp.
    destruct w; cbn [width_bits] in *;
      match type of E with
      | ?x mod ?m = _ => pose proof (Z.mod_pos_bound x m);
                         pose proof (Z.div_mod x m)
      end; lia. }
  rewrite Em, Z.abs_opp, Z.abs_eq in Hp by lia.
  rewrite IsPow2_pow2 in Hp by (pose proof (width_bits_pos w); lia).
  discriminate Hp.
Qed.

(** X11.  The block of a signed divisor [d]: it records [d]; [is_pow2]
    is set exactly when the magnitude of [d] is a power of two (the
    minimum value included), and then multiplier and shift are 1 and 0 and
    [pow2_shift] is the exponent; otherwise the shift [s] satisfies
    [2^s < |d| < 2^(s+1)] and [1 <= s <= W - 2].  Neither the arm for
    [abs_d == 1] nor the arm for the minimum value is reached. *)
Theorem ComputeDivisorParamsS_block (b : Build) (w : Width) (d : Z)
  (p : DivisorParamsS) :
  in_range (SInt w) d -> ComputeDivisorParamsS b w d = Some p ->
  ParamsS.divisor p = d /\
  ParamsS.is_pow2 p = IsPow2 (Z.abs d) /\
  (IsPow2 (Z.abs d) = true ->
   ParamsS.multiplier p = 1 /\ ParamsS.shift p = 0 /\
   0 <= ParamsS.pow2_shift p < width_bits w /\
   Z.abs d = 2 ^ ParamsS.pow2_shift p) /\
  (IsPow2 (Z.abs d) = false ->
   1 <= ParamsS.shift p <= width_bits w - 2 /\
   2 ^ ParamsS.shift p < Z.abs d < 2 ^ (ParamsS.shift p + 1)).
Proof.
  intros R H.
  assert (Hz : d <> 0).
  { intros ->. destruct w; discriminate H. }
  destruct (IsPow2 (Z.abs d)) eqn:Hp.
  - destruct (pow2_params_S b w d R Hz Hp) as (k & Hk & E & Hpar).
    rewrite Hpar in H. inversion H; subst p.
    cbn [ParamsS.divisor ParamsS.is_pow2 ParamsS.pow2_shift
         ParamsS.multiplier ParamsS.shift].
    repeat split; try lia; discriminate.
  - pose proof (not_pow2_ge_3 (Z.abs d) ltac:(lia) Hp) as H3.
    pose proof (abs_divisor_abs w d R) as Ea.
    pose proof (not_min_cast w d R Hp) as Hc.
    pose proof R as R'. apply signed_range in R'.
    assert (Hm : Z.abs d <> 2 ^ (width_bits w - 1)).
    { intros E. rewrite E, IsPow2_pow2 in Hp
        by (pose proof (width_bits_pos w); lia). discriminate Hp. }
    assert (K : forall sh m,
               1 <= sh <= width_bits w - 2 ->
               2 ^ sh < Z.abs d <= 2 ^ (sh + 1) ->
               Some (ParamsS.mk m sh d false unset) = Some p ->
               ParamsS.divisor p = d /\ ParamsS.is_pow2 p = false /\
               (false = true ->
                ParamsS.multiplier p = 1 /\ ParamsS.shift p = 0 /\
                0 <= ParamsS.pow2_shift p < width_bits w /\
                Z.abs d = 2 ^ ParamsS.pow2_shift p) /\
               (false = false ->
                1 <= ParamsS.shift p <= width_bits w - 2 /\
                2 ^ ParamsS.shift p < Z.abs d < 2 ^ (ParamsS.shift p + 1))).
    { intros sh m Hs Bs E. inversion E; subst p.
      cbn [ParamsS.divisor ParamsS.is_pow2 ParamsS.shift].
      assert (Z.abs d <> 2 ^ (sh + 1)).
      { intros E'. rewrite E', IsPow2_pow2 in Hp by lia. discriminate Hp. }
      repeat split; try lia; discriminate. }
    destruct w; cbn [ComputeDivisorParamsS] in H;
      [unfold ComputeDivisorParams_i8 in H;
       change (abs_divisor int8_t d) with (abs_divisor (SInt W8) d) in H;
       change (static_cast uint8_t d =? 128)
         with (static_cast (UInt W8) d =? 2 ^ (width_bits W8 - 1)) in H
      |unfold ComputeDivisorParams_i16 in H;
       change (abs_divisor int16_t d) with (abs_divisor (SInt W16) d) in H;
       change (static_cast uint16_t d =? 32768)
         with (static_cast (UInt W16) d =? 2 ^ (width_bits W16 - 1)) in H
      |unfold ComputeDivisorParams_i32 in H;
       change (abs_divisor int32_t d) with (abs_divisor (SInt W32) d) in H;
       change (static_cast uint32_t d =? 2147483648)
         with (static_cast (UInt W32) d =? 2 ^ (width_bits W32 - 1)) in H
      |unfold ComputeDivisorParams_i64 in H;
       change (abs_divisor int64_t d) with (abs_divisor (SInt W64) d) in H;
       change (static_cast uint64_t d =? 9223372036854775808)
         with (static_cast (UInt W64) d =? 2 ^ (width_bits W64 - 1)) in H];
      rewrite Ea, Hp, (proj2 (Z.eqb_neq d 0) Hz), Hc in H;
      (destruct (Z.eqb_spec (Z.abs d) 1); [lia|]); cbv zeta in H.
    1-3: match type of H with
         | Some (ParamsS.mk ?m (static_cast int_t ?sh) _ _ _) = _ =>
             match type of Hm with
             | _ <> 2 ^ (width_bits ?w0 - 1) =>
                 destruct (shift_of_s32 w0 (Z.abs d) ltac:(discriminate)
                             ltac:(lia)) as (Rl & El & Bl)
             end;
             rewrite El in H; exact (K sh m Rl Bl H)
         end.
    match type of H with
    | obind ?o _ = _ => destruct o as [q|]; [|discriminate H]
    end.
    cbn [obind] in H.
    match type of H with
    | Some (ParamsS.mk ?m (static_cast int_t ?sh) _ _ _) = _ =>
        destruct (shift_of_s64 (Z.abs d)
                    ltac:(cbn [width_bits] in R', Hm; lia))
          as (Rl & El & Bl);
        rewrite El in H; exact (K sh m Rl Bl H)
    end.
Qed.

Lemma ComputeDivisorParamsS_block_witness :
  exists p,
    ComputeDivisorParamsS check_build W8 (-100) = Some p /\
    ParamsS.divisor p = -100 /\
    ParamsS.is_pow2 p = IsPow2 (Z.abs (-100)) /\
    (IsPow2 (Z.abs (-100)) = false ->
     1 <= ParamsS.shift p <= width_bits W8 - 2 /\
     2 ^ ParamsS.shift p < Z.abs (-100) < 2 ^ (ParamsS.shift p + 1)).
Proof.
  eexists. split; [reflexivity|].
  destruct (ComputeDivisorParamsS_block check_build W8 (-100) _
              ltac:(apply in_rangeb_spec; reflexivity) eq_refl)
    as (A & B & _ & C).
  split; [exact A|]. split; [exact B|exact C].
Defined.

(* ------------------------------------------------------------------ *)
(** ** Lanes, vectors and builds                                       *)
(* ------------------------------------------------------------------ *)



(** X18.  Below 64 bits the result of [IntDiv] and of [IntDivFloor] does
    not depend on the build, for any parameter block: the branches of
    [ShiftRightUniform] agree and the scalar fallback is compiled for
    64-bit lanes only. *)
Theorem IntDiv_any_build_below_64 (b b' : Build) (w : Width) (n : nat)
  (v : Vec) (pU : DivisorParamsU) (pS : DivisorParamsS) :
  w <> W64 -> length v = n ->
  IntDivU b (utag w n) v pU = IntDivU b' (utag w n) v pU /\
  IntDivS b (stag w n) v pS = IntDivS b' (stag w n) v pS /\
  IntDivFloorS b (stag w n) v pS = IntDivFloorS b' (stag w n) v pS.
Proof.
  intros Hw L.
  assert (U : IntDivU b (utag w n) v pU = IntDivU b' (utag w n) v pU).
  { unfold utag. rewrite !(IntDivU_lanes _ (UInt w) pU n v L).
    apply map_ext. intros a. now apply IntDivU_lane_any_build. }
  assert (S : IntDivS b (stag w n) v pS = IntDivS b' (stag w n) v pS).
  { unfold stag. rewrite !(IntDivS_lanes _ (SInt w) pS n v L).
    apply map_ext. intros a. now apply IntDivS_lane_any_build. }
  split; [exact U|]. split; [exact S|].
  unfold IntDivFloorS. now rewrite S.
Qed.

Lemma IntDiv_any_build_below_64_witness :
  IntDivS (mkBuild HWY_NEON WideInt128 None) (stag W16 3) [-7; 0; 32767]
    (ParamsS.mk (-21845) 1 3 false unset)
  = IntDivS (mkBuild HWY_OTHER WidePortable None) (stag W16 3)
      [-7; 0; 32767] (ParamsS.mk (-21845) 1 3 false unset).
Proof.
  apply (proj1 (proj2
    (IntDiv_any_build_below_64 (mkBuild HWY_NEON WideInt128 None)
       (mkBuild HWY_OTHER WidePortable None) W16 3 [-7; 0; 32767]
       (ParamsU.mk 1 0 0 true 0 1) (ParamsS.mk (-21845) 1 3 false unset)
       ltac:(discriminate) eq_refl))).
Defined.

(* ------------------------------------------------------------------ *)
(** ** 64-bit lanes and divisors below 2^32, on every build            *)
(* ------------------------------------------------------------------ *)







(* ------------------------------------------------------------------ *)
(** ** The array entry points                                          *)
(* ------------------------------------------------------------------ *)





(** The loop and the remainder handling, for a vector primitive [f] that
    applies [g] to every lane: the first [count] elements are replaced by
    their images and the others are left as they are.  The loop has a
    result because every iteration advances by at least one lane. *)
Section ArrayLoop.
Variables (f : Vec -> Vec) (g : Z -> Z) (d : Tag).
Hypothesis lanes_pos : (0 < Lanes d)%nat.
Hypothesis f_lanes : forall v, length v = Lanes d -> f v = map g v.



End ArrayLoop.











(* ------------------------------------------------------------------ *)
(** ** The scalar references of the unit test                          *)
(* ------------------------------------------------------------------ *)

(** The floor of a quotient of two values of a signed lane type is a
    value of the type, the quotient of the minimum by -1 apart. *)
Lemma floor_in_range (w : Width) (a d : Z) :
  in_range (SInt w) a -> d <> 0 ->
  ~ (a = LimitsMin (SInt w) /\ d = -1) ->
  in_range (SInt w) (a / d).
Proof.
  intros Ra Hz Hx.
  pose proof (trunc_in_range w a d Ra Hz Hx) as Rq.
  rewrite (floor_from_trunc a d Hz).
  apply signed_range. apply signed_range in Ra. apply signed_range in Rq.
  destruct (half_width w) as [E P].
  destruct (Z.eqb_spec a (Z.quot a d * d)) as [Em|Em]; cbn [negb andb];
    [lia|].
  assert (D1 : d <> 1) by (intros ->; rewrite Z.quot_1_r in Em; lia).
  assert (D2 : d <> -1).
  { intros ->. apply Em. change (-1) with (- (1)).
    rewrite Z.quot_opp_r, Z.quot_1_r; lia. }
  pose proof (quot_halves a (Z.abs d) ltac:(lia)) as Hh.
  rewrite (quot_by_sign a d Hz) in *.
  destruct (xorb (a <? 0) (d <? 0)); destruct (d <? 0); lia.
Qed.

(** [(a ^ b) < 0] tests whether the signs differ. *)
Lemma lxor_sign (a b : Z) :
  (Z.lxor a b <? 0) = xorb (a <? 0) (b <? 0).
Proof.
  pose proof (Z.lxor_nonneg a b) as H.
  destruct (Z.ltb_spec (Z.lxor a b) 0), (Z.ltb_spec a 0), (Z.ltb_spec b 0);
    cbn [xorb]; try reflexivity; exfalso; lia.
Qed.

(** The remainder is non-zero exactly when the product of quotient and
    divisor misses the dividend, and then it has the sign of the
    dividend. *)
Lemma rem_test (a d : Z) :
  d <> 0 ->
  negb (Z.rem a d =? 0) = negb (a =? Z.quot a d * d) /\
  (Z.rem a d <> 0 -> (Z.rem a d <? 0) = (a <? 0)).
Proof.
  intros Hz. pose proof (Z.quot_rem' a d) as QR.
  split.
  - destruct (Z.eqb_spec (Z.rem a d) 0), (Z.eqb_spec a (Z.quot a d * d));
      try reflexivity; exfalso; lia.
  - intros Hr.
    destruct (Z.ltb_spec a 0) as [Na|Pa].
    + pose proof (Z.rem_nonpos a d ltac:(lia) ltac:(lia)).
      apply Z.ltb_lt. lia.
    + pose proof (Z.rem_nonneg a d ltac:(lia) ltac:(lia)).
      apply Z.ltb_ge. lia.
Qed.

Lemma promoted_holds (w : Width) (z : Z) :
  in_range (SInt w) z -> static_cast (promoted (SInt w)) z = z.
Proof.
  intros R. apply static_cast_id. apply signed_range in R.
  destruct w; unfold promoted, in_range; cbn in *; lia.
Qed.

(** The C++ floor of a quotient, as the three references of the test and
    of the benchmark compute it from the truncating quotient. *)
Lemma floor_by_remainder (w : Width) (a b : Z) :
  in_range (SInt w) a -> b <> 0 ->
  ~ (a = LimitsMin (SInt w) /\ b = -1) ->
  let q := static_cast (SInt w) (Z.quot a b) in
  let r := static_cast (SInt w) (Z.rem a b) in
  q = Z.quot a b /\ r = Z.rem a b /\
  (if negb (r =? 0) && xorb (r <? 0) (b <? 0)
   then static_cast (SInt w) (q - 1) else q) = a / b.
Proof.
  intros Ra Hz Hx q r.
  pose proof (trunc_in_range w a b Ra Hz Hx) as Rq.
  pose proof (floor_in_range w a b Ra Hz Hx) as Rf.
  destruct (quot_bounds a b Hz) as [Bq Bp].
  destruct (rem_test a b Hz) as [T1 T2].
  assert (Rr : in_range (SInt w) (Z.rem a b)).
  { apply signed_range. apply signed_range in Ra.
    pose proof (Z.quot_rem' a b). lia. }
  unfold q, r.
  rewrite (static_cast_id _ _ Rq), (static_cast_id _ _ Rr).
  split; [reflexivity|]. split; [reflexivity|].
  rewrite (floor_from_trunc a b Hz) in *. rewrite T1.
  destruct (Z.eqb_spec a (Z.quot a b * b)) as [E|E]; cbn [negb andb];
    [lia|].
  rewrite T2 by (pose proof (Z.quot_rem' a b); lia).
  destruct (xorb (a <? 0) (b <? 0)); [apply static_cast_id, Rf|lia].
Qed.

(** X26.  The two floor references of the unit test, [SafeFloorDivScalar]
    and [AddedFloorDivScalar], return the floor of the rational quotient
    for every signed dividend and non-zero divisor, the pair (minimum, -1)
    apart; on that pair [SafeFloorDivScalar] returns 0. *)
Theorem floor_references_agree (w : Width) (a b : Z) :
  in_range (SInt w) a -> in_range (SInt w) b -> b <> 0 ->
  (~ (a = LimitsMin (SInt w) /\ b = -1) ->
   SafeFloorDivScalar (SInt w) a b = floor_div a b /\
   AddedFloorDivScalarS (SInt w) a b = floor_div a b) /\
  (a = LimitsMin (SInt w) -> b = -1 ->
   SafeFloorDivScalar (SInt w) a b = 0).
Proof.
  intros Ra Rb Hz.
  assert (M1 : static_cast (SInt w) (-1) = -1)
    by (destruct w; reflexivity).
  split.
  - intros Hx.
    pose proof (trunc_in_range w a b Ra Hz Hx) as Rq.
    pose proof (floor_in_range w a b Ra Hz Hx) as Rf.
    destruct (quot_bounds a b Hz) as [Bq Bp].
    assert (Rp : in_range (SInt w) (Z.quot a b * b)).
    { apply signed_range. apply signed_range in Ra. lia. }
    unfold floor_div. rewrite (floor_from_trunc a b Hz) in *.
    split.
    + unfold SafeFloorDivScalar. cbn [IsSigned negb].
      assert (Em : (b =? static_cast (SInt w) (-1))
                   && (a =? LimitsMin (SInt w)) = false).
      { rewrite M1.
        destruct (Z.eqb_spec b (-1)), (Z.eqb_spec a (LimitsMin (SInt w)));
          try reflexivity. exfalso. apply Hx. auto. }
      rewrite Em. cbv zeta.
      rewrite (static_cast_id _ _ Rq), (promoted_holds w _ Rp).
      apply static_cast_id, Rf.
    + unfold AddedFloorDivScalarS. cbv zeta.
      destruct (rem_test a b Hz) as [T1 T2].
      assert (Rr : in_range (SInt w) (Z.rem a b)).
      { apply signed_range. apply signed_range in Ra.
        pose proof (Z.quot_rem' a b). lia. }
      rewrite (static_cast_id _ _ Rq), (static_cast_id _ _ Rr).
      rewrite T1, lxor_sign.
      destruct (negb (a =? Z.quot a b * b) && xorb (a <? 0) (b <? 0));
        [apply static_cast_id, Rf|lia].
  - intros -> ->. unfold SafeFloorDivScalar. cbn [IsSigned negb].
    rewrite M1, !Z.eqb_refl. destruct w; reflexivity.
Qed.

Lemma floor_references_agree_witness :
  SafeFloorDivScalar (SInt W8) (-7) 3 = floor_div (-7) 3 /\
  AddedFloorDivScalarS (SInt W8) (-7) 3 = floor_div (-7) 3.
Proof.
  apply (proj1 (floor_references_agree W8 (-7) 3
                  ltac:(apply in_rangeb_spec; reflexivity)
                  ltac:(apply in_rangeb_spec; reflexivity)
                  ltac:(lia))).
  lia.
Defined.

(* ------------------------------------------------------------------ *)
(** ** The kernels and the result check of the benchmark               *)
(* ------------------------------------------------------------------ *)

(** A loop that writes [dst[i] = h(src[i])] for the indices of a
    segment. *)
Lemma copy_loop (h : Z -> Z) (v : list Z) :
  forall spre srest pre old drest : list Z,
    length spre = length pre -> length old = length v ->
    fold_left (fun dst i => buf_set dst i (h (nth i (spre ++ v ++ srest) 0)))
              (seq (length pre) (length v)) (pre ++ old ++ drest)
    = pre ++ map h v ++ drest.
Proof.
  induction v as [|x v IH]; intros spre srest pre old drest Ls Lo.
  - destruct old; [reflexivity|discriminate Lo].
  - destruct old as [|o old]; [discriminate Lo|].
    cbn [length seq fold_left map].
    change (spre ++ (x :: v) ++ srest) with (spre ++ x :: (v ++ srest)).
    replace (nth (length pre) (spre ++ x :: v ++ srest) 0) with x
      by (rewrite <- Ls; symmetry; apply nth_middle).
    change (pre ++ (o :: old) ++ drest) with (pre ++ o :: (old ++ drest)).
    rewrite buf_set_middle.
    specialize (IH (spre ++ [x]) srest (pre ++ [h x]) old drest).
    rewrite !length_app, !Nat.add_1_r, <- !app_assoc in IH.
    cbn [app] in IH. cbn [app].
    apply IH; [now rewrite Ls|]. now injection Lo.
Qed.

Lemma split_at (count : nat) (l : list Z) :
  (count <= length l)%nat ->
  l = firstn count l ++ skipn count l /\ length (firstn count l) = count.
Proof.
  intros H. split; [symmetry; apply firstn_skipn|].
  rewrite length_firstn. lia.
Qed.

Lemma scalar_fold (h : Z -> Z) (src dst : list Z) (count : nat) :
  (count <= length src)%nat -> (count <= length dst)%nat ->
  fold_left (fun dst i => buf_set dst i (h (nth i src 0)))
            (seq 0 count) dst
  = map h (firstn count src) ++ skipn count dst.
Proof.
  intros Hs Hd.
  destruct (split_at count src Hs) as [Es Ls].
  destruct (split_at count dst Hd) as [Ed Ld].
  pose proof (copy_loop h (firstn count src) [] (skipn count src) []
                (firstn count dst) (skipn count dst) eq_refl
                ltac:(lia)) as K.
  cbn [length app] in K. rewrite Ls, !firstn_skipn in K. exact K.
Qed.

(** The loop and the tail of [SimdDivide], for a vector primitive [f]
    that applies [g] to every lane. *)
Section SimdLoop.
Variables (f : Vec -> Vec) (g : Z -> Z) (d : Tag).
Hypothesis lanes_pos : (0 < Lanes d)%nat.
Hypothesis f_lanes : forall v, length v = Lanes d -> f v = map g v.



End SimdLoop.

Lemma verify_from (n : nat) :
  forall pre1 pre2 a b : list Z,
    length pre1 = length pre2 ->
    (n <= length a)%nat -> (n <= length b)%nat ->
    (forallb (fun i => nth i (pre1 ++ a) 0 =? nth i (pre2 ++ b) 0)
             (seq (length pre1) n) = true
     <-> firstn n a = firstn n b).
Proof.
  induction n as [|n IH]; intros pre1 pre2 a b L Ha Hb.
  - split; reflexivity.
  - destruct a as [|x a]; [cbn in Ha; lia|].
    destruct b as [|y b]; [cbn in Hb; lia|].
    cbn [length] in Ha, Hb.
    cbn [seq forallb firstn]. rewrite andb_true_iff, Z.eqb_eq.
    rewrite nth_middle. rewrite L at 1. rewrite nth_middle.
    specialize (IH (pre1 ++ [x]) (pre2 ++ [y]) a b).
    rewrite !length_app, !Nat.add_1_r, <- !app_assoc in IH.
    cbn [app] in IH. rewrite IH by lia.
    split; [intros [-> ->]; reflexivity|intros E; now inversion E].
Qed.



(** X27.  The scalar references of the benchmark: [ScalarDivide] writes
    the truncating quotient and [ScalarFloorDivide] the floor of the
    quotient of each of the first [count] elements of [src] to [dst], and
    leaves the elements of [dst] from [count] on untouched. *)
Theorem bench_scalar_references (w : Width) (src dst : list Z)
  (count : nat) (d : Z) :
  (count <= length src)%nat -> (count <= length dst)%nat ->
  Forall (in_range (SInt w)) (firstn count src) -> d <> 0 ->
  Forall (fun a => ~ (a = LimitsMin (SInt w) /\ d = -1))
         (firstn count src) ->
  ScalarDivide (SInt w) src dst count d
  = map (fun a => trunc_div a d) (firstn count src) ++ skipn count dst /\
  ScalarFloorDivide (SInt w) src dst count d
  = map (fun a => floor_div a d) (firstn count src) ++ skipn count dst.
Proof.
  intros Hs Hd Rv Hz Hx. rewrite Forall_forall in Rv, Hx. split.
  - unfold ScalarDivide.
    rewrite (scalar_fold (fun a => static_cast (SInt w) (Z.quot a d)))
      by assumption.
    f_equal. apply map_ext_in. intros a Ia.
    apply static_cast_id, trunc_in_range; auto.
  - unfold ScalarFloorDivide.
    rewrite (scalar_fold
               (fun a =>
                  let q := static_cast (SInt w) (Z.quot a d) in
                  let r := static_cast (SInt w) (Z.rem a d) in
                  if negb (r =? 0) && xorb (r <? 0) (d <? 0)
                  then static_cast (SInt w) (q - 1) else q))
      by assumption.
    f_equal. apply map_ext_in. intros a Ia.
    apply (floor_by_remainder w a d (Rv a Ia) Hz (Hx a Ia)).
Qed.

Lemma bench_scalar_references_witness :
  ScalarDivide (SInt W16) [-100; -7; 7; 100; 5] [0; 0; 0; 0; 9] 4 (-3)
  = map (fun a => trunc_div a (-3)) (firstn 4 [-100; -7; 7; 100; 5])
    ++ skipn 4 [0; 0; 0; 0; 9] /\
  ScalarFloorDivide (SInt W16) [-100; -7; 7; 100; 5] [0; 0; 0; 0; 9] 4 (-3)
  = map (fun a => floor_div a (-3)) (firstn 4 [-100; -7; 7; 100; 5])
    ++ skipn 4 [0; 0; 0; 0; 9].
Proof.
  apply (bench_scalar_references W16 [-100; -7; 7; 100; 5]
           [0; 0; 0; 0; 9] 4 (-3)).
  - cbn [length]. lia.
  - cbn [length]. lia.
  - repeat (first [apply Forall_nil | apply Forall_cons]);
      apply in_rangeb_spec; reflexivity.
  - lia.
  - repeat (first [apply Forall_nil | apply Forall_cons]); lia.
Defined.

(** X30.  [VerifyResults] returns true exactly when the first [count]
    elements of the two arrays are equal. *)
Theorem VerifyResults_iff (a b : list Z) (count : nat) :
  (count <= length a)%nat -> (count <= length b)%nat ->
  (VerifyResults a b count = true <-> firstn count a = firstn count b).
Proof.
  intros Ha Hb. exact (verify_from count [] [] a b eq_refl Ha Hb).
Qed.

Lemma VerifyResults_iff_witness :
  VerifyResults [1; 2; 3; 4] [1; 2; 3; 5] 3 = true
  <-> firstn 3 [1; 2; 3; 4] = firstn 3 [1; 2; 3; 5].
Proof.
  apply (VerifyResults_iff [1; 2; 3; 4] [1; 2; 3; 5] 3); cbn [length]; lia.
Defined.





